(** * SeqAn3 range views: [view::take_line], [view::trim], the bounded take
      family and [std::span]

    A shallow embedding of the view layer of SeqAn3 and of the properties its
    specification states about it.

    Ranges are modelled the way the C++ code sees them: a range type hands out
    an iterator, the iterator is compared against the sentinel, dereferenced
    and incremented.  Each of these may throw one of the library's exceptions
    or have no defined result at all (dereferencing or incrementing a
    past-the-end iterator), hence the [outcome] type below. *)

From Stdlib Require Import Ascii String Bool Arith Lia ZArith List.
Import ListNotations.

Set Implicit Arguments.

(* ================================================================== *)
(** ** Outcomes of an operation *)
(* ================================================================== *)

(** The exceptions thrown by the views.  [unexpected_end_of_input] is
    seqan3's own (io/exception.hpp), [invalid_argument] is
    [std::invalid_argument]. *)
Inductive exception : Type :=
| unexpected_end_of_input
| invalid_argument.

(** What stops an operation short of a value: an exception, a violated
    assertion, behaviour the language leaves undefined (reading or stepping
    through a past-the-end iterator), or a member that is ill-formed as soon
    as it is instantiated, so that no program can call it. *)
Inductive failure : Type :=
| Thrown (e : exception)
| AssertionViolated
| UndefinedBehaviour
| IllFormed.

Inductive outcome (A : Type) : Type :=
| Val (a : A)
| Fail (f : failure).

Arguments Val {A} a.
Arguments Fail {A} f.

Definition throw {A : Type} (e : exception) : outcome A := Fail (Thrown e).
Definition undefined {A : Type} : outcome A := Fail UndefinedBehaviour.

Definition bind {A B : Type} (m : outcome A) (k : A -> outcome B) : outcome B :=
  match m with
  | Val a => k a
  | Fail f => Fail f
  end.

Notation "x <- m ;; k" := (bind m (fun x => k))
  (at level 61, m at next level, right associativity).

(* ================================================================== *)
(** ** Ranges and their iterators *)
(* ================================================================== *)

(** The range concept as the views use it.  [R] is the range type, [I] its
    iterator type ([std::ranges::iterator_t]), [A] its value type.
    [forward_range] and [sized_range] are the compile-time answers of
    [std::ranges::ForwardRange<R>] and [std::ranges::SizedRange<R>]; a sized
    range also says how to compute the size.  The sentinel is the end of the
    underlying range, so comparing against it is a function of the iterator. *)
Class Range (R I A : Type) : Type := {
  forward_range : bool;
  sized_range : option (R -> nat);
  range_begin : R -> I;
  at_sentinel : I -> outcome bool;
  deref : I -> outcome A;
  incr : I -> outcome I
}.

Arguments forward_range R {I A _}.
Arguments sized_range R {I A _}.
Arguments range_begin {R I A _} r.
Arguments at_sentinel R {I A _} it.
Arguments deref R {I A _} it.
Arguments incr R {I A _} it.

#[global] Hint Mode Range ! - - : typeclass_instances.

(** A container ([std::string], [std::vector]): multi-pass and sized.  Its
    iterator is modelled by the part of the container that is still ahead of
    it, so the end iterator is the empty rest. *)
#[global] Instance container_range (A : Type) : Range (list A) (list A) A := {|
  forward_range := true;
  sized_range := Some (@List.length A);
  range_begin := fun c => c;
  at_sentinel := fun it => Val (match it with [] => true | _ => false end);
  deref := fun it => match it with [] => undefined | x :: _ => Val x end;
  incr := fun it => match it with [] => undefined | _ :: rest => Val rest end
|}.

(** Modelled from the spec: [view::single_pass_input]; its header,
    seqan3/range/view/single_pass_input.hpp, is missing.  The wrapper turns
    any range into a single-pass input range: same elements, neither forward
    nor sized. *)
Record single_pass_input (R : Type) : Type := SinglePass { sp_urange : R }.

#[global] Instance single_pass_range (R I A : Type) `{Range R I A}
  : Range (single_pass_input R) I A := {|
  forward_range := false;
  sized_range := None;
  range_begin := fun v => range_begin (sp_urange v);
  at_sentinel := at_sentinel R;
  deref := deref R;
  incr := incr R
|}.

(** [std::ranges::copy(begin, end, std::back_inserter(ret))], the loop behind
    the conversion of a view into a container and behind a range-based for:
    while the iterator differs from the sentinel, append [*it] and step.  The
    result holds what was written and how the loop stopped: at the final
    iterator, or at a failure.  [None] means the fuel ran out. *)
Section Copy.
Context {R I A : Type} `{Range R I A}.

Fixpoint copy (fuel : nat) (it : I) (ret : list A)
  : option (list A * outcome I) :=
  match fuel with
  | O => None
  | S fuel' =>
      match at_sentinel R it with
      | Fail f => Some (ret, Fail f)
      | Val true => Some (ret, Val it)
      | Val false =>
          match deref R it with
          | Fail f => Some (ret, Fail f)
          | Val x =>
              match incr R it with
              | Fail f => Some (ret ++ [x], Fail f)
              | Val it' => copy fuel' it' (ret ++ [x])
              end
          end
      end
  end.

(** The implicit conversion [operator container_t()] of a view. *)
Definition to_container (fuel : nat) (v : R) : option (list A * outcome I) :=
  copy fuel (range_begin v) [].

(** Big-step reading of the same loop: from [it] the loop writes [l] and
    stops as [stop]. *)
Inductive yields : I -> list A -> outcome I -> Prop :=
| yields_end it :
    at_sentinel R it = Val true -> yields it [] (Val it)
| yields_cmp_fail it f :
    at_sentinel R it = Fail f -> yields it [] (Fail f)
| yields_deref_fail it f :
    at_sentinel R it = Val false -> deref R it = Fail f ->
    yields it [] (Fail f)
| yields_incr_fail it x f :
    at_sentinel R it = Val false -> deref R it = Val x ->
    incr R it = Fail f -> yields it [x] (Fail f)
| yields_step it x it' l stop :
    at_sentinel R it = Val false -> deref R it = Val x ->
    incr R it = Val it' -> yields it' l stop ->
    yields it (x :: l) stop.
End Copy.

Arguments copy R {I A _} fuel it ret.
Arguments to_container {R I A _} fuel v.
Arguments yields R {I A _} it l stop.

(* ================================================================== *)
(** ** [view::take_line] and [view::take_line_or_throw] *)
(* ================================================================== *)

Definition CR : ascii := "013"%char.
Definition LF : ascii := "010"%char.

(** [view_take_line<urng_t, require_eol>]: holds the underlying range. *)
Record view_take_line (require_eol : bool) (urng_t : Type) : Type :=
  View_take_line { urange : urng_t }.

Arguments View_take_line require_eol {urng_t} urange.

(** [view_take_line::iterator_type]: the underlying iterator (the class
    inherits from it) and the cached flag. *)
Record iterator_type (base_base_t : Type) : Type := Iterator_type {
  base : base_base_t;
  at_end : bool
}.

Section ViewTakeLine.
Context {urng_t base_base_t : Type} `{Range urng_t base_base_t ascii}.
Variable require_eol : bool.

(** [iterator_type(base_base_t const & it) : base_t{it} {}]; [at_end]
    takes its default member initialiser. *)
Definition of_base (it : base_base_t) : iterator_type base_base_t :=
  {| base := it; at_end := false |}.

(** The double dereference of [this]: the element under the cursor. *)
Definition tl_deref (it : iterator_type base_base_t) : outcome ascii :=
  deref urng_t (base it).

(** [operator++()].  Each assignment of [++static_cast<base_base_t>(...)]
    to the iterator increments a copy of the underlying iterator and assigns
    it back through the converting constructor above, which also resets
    [at_end]. *)
Definition tl_incr (it : iterator_type base_base_t)
  : outcome (iterator_type base_base_t) :=
  b1 <- incr urng_t (base it) ;;
  let it1 := of_base b1 in
  if negb (forward_range urng_t) then
    if negb (at_end it1) then
      c <- tl_deref it1 ;;
      it2 <- (if Ascii.eqb c CR
              then b2 <- incr urng_t (base it1) ;;
                   Val {| base := b2; at_end := true |}
              else Val it1) ;;
      c' <- tl_deref it2 ;;
      if Ascii.eqb c' LF
      then b3 <- incr urng_t (base it2) ;;
           Val {| base := b3; at_end := true |}
      else Val it2
    else Val it1
  else Val it1.

(** [operator==(sentinel_type const &)] *)
Definition tl_at_sentinel (it : iterator_type base_base_t) : outcome bool :=
  if negb (forward_range urng_t) && at_end it then Val true
  else
    e <- at_sentinel urng_t (base it) ;;
    if e then
      if require_eol then throw unexpected_end_of_input else Val true
    else
      c <- tl_deref it ;;
      if Ascii.eqb c CR then Val true
      else c' <- tl_deref it ;; Val (Ascii.eqb c' LF).

(** [begin()] *)
Definition tl_begin (v : view_take_line require_eol urng_t)
  : iterator_type base_base_t :=
  of_base (range_begin (urange v)).
End ViewTakeLine.

(** The view is a range again: forward-ness is preserved, size is lost. *)
#[global] Instance take_line_range (require_eol : bool)
  (urng_t base_base_t : Type) `{Range urng_t base_base_t ascii}
  : Range (view_take_line require_eol urng_t) (iterator_type base_base_t) ascii
  := {|
  forward_range := forward_range urng_t;
  sized_range := None;
  range_begin := tl_begin (require_eol := require_eol);
  at_sentinel := tl_at_sentinel (urng_t := urng_t) require_eol;
  deref := tl_deref (urng_t := urng_t);
  incr := tl_incr (urng_t := urng_t)
|}.


(* ================================================================== *)
(** ** Adaptor composition *)
(* ================================================================== *)

(** [std::view::all]: a view is returned as it is, a container is wrapped in
    a reference view with the container's elements and capabilities; the
    model identifies the reference view with the range it refers to. *)
Definition view_all {urng_t : Type} (urange : urng_t) : urng_t := urange.

(** The overloads of [operator|]: [pipe u f] is [u | f]. *)
Class Pipe (U F V : Type) : Type := pipe : U -> F -> V.

#[global] Hint Mode Pipe ! ! - : typeclass_instances.

Notation "u |> f" := (pipe u f) (at level 50, left associativity).

(** [take_line_fn<require_eol>], a class without data members. *)
Inductive take_line_fn (require_eol : bool) : Type := Take_line_fn.

(** [take_line_fn::impl]: the overload for viewable ranges wraps its argument
    in [view::all] and calls the overload for views, which constructs the
    view. *)
Definition impl {require_eol : bool} {urng_t : Type}
  (fn : take_line_fn require_eol) (urange : urng_t)
  : view_take_line require_eol urng_t :=
  View_take_line require_eol (view_all urange).

(** Modelled from the spec: [pipable_adaptor_base]; its header,
    seqan3/range/view/detail.hpp, is missing.  It is the base class that
    gives an adaptor its call operator and its pipe operator, both of which
    hand the range to the adaptor's [impl]. *)
Definition pipable_call {require_eol : bool} {urng_t : Type}
  (fn : take_line_fn require_eol) (urange : urng_t)
  : view_take_line require_eol urng_t :=
  impl fn urange.

#[global] Instance pipable_pipe (require_eol : bool) (urng_t : Type)
  : Pipe urng_t (take_line_fn require_eol) (view_take_line require_eol urng_t)
  := fun urange fn => impl fn urange.

(** [view::take_line] and [view::take_line_or_throw], the adaptor objects. *)
Definition take_line : take_line_fn false := Take_line_fn false.
Definition take_line_or_throw : take_line_fn true := Take_line_fn true.

(* ================================================================== *)
(** ** [std::view::take_while] and [std::view::transform] *)
(* ================================================================== *)

(** The standard library's [take_while] view: iteration ends at the end of
    the underlying range or at the first element that fails the predicate.
    The sentinel of the C++ view carries the predicate; here the iterator
    does, since the sentinel comparison is a function of the iterator. *)
Record take_while_view (urng_t A : Type) : Type := Take_while_view {
  tw_urange : urng_t;
  tw_pred : A -> bool
}.

Record take_while_iterator (I A : Type) : Type := Take_while_iterator {
  tw_base : I;
  tw_fun : A -> bool
}.

Definition take_while {urng_t A : Type} (urange : urng_t) (pred : A -> bool)
  : take_while_view urng_t A :=
  {| tw_urange := urange; tw_pred := pred |}.

#[global] Instance take_while_range (urng_t I A : Type) `{Range urng_t I A}
  : Range (take_while_view urng_t A) (take_while_iterator I A) A := {|
  forward_range := forward_range urng_t;
  sized_range := None;
  range_begin := fun v =>
    {| tw_base := range_begin (tw_urange v); tw_fun := tw_pred v |};
  at_sentinel := fun it =>
    e <- at_sentinel urng_t (tw_base it) ;;
    if e then Val true
    else x <- deref urng_t (tw_base it) ;; Val (negb (tw_fun it x));
  deref := fun it => deref urng_t (tw_base it);
  incr := fun it =>
    b <- incr urng_t (tw_base it) ;;
    Val {| tw_base := b; tw_fun := tw_fun it |}
|}.

(** The standard library's [transform] view: the elements of the underlying
    range with a function applied on dereference. *)
Record transform_view (urng_t A B : Type) : Type := Transform_view {
  tr_urange : urng_t;
  tr_fun : A -> B
}.

Record transform_iterator (I A B : Type) : Type := Transform_iterator {
  tr_base : I;
  tr_f : A -> B
}.

Definition transform {urng_t A B : Type} (urange : urng_t) (f : A -> B)
  : transform_view urng_t A B :=
  {| tr_urange := urange; tr_fun := f |}.

#[global] Instance transform_range (urng_t I A B : Type) `{Range urng_t I A}
  : Range (transform_view urng_t A B) (transform_iterator I A B) B := {|
  forward_range := forward_range urng_t;
  sized_range :=
    match sized_range urng_t with
    | Some size => Some (fun v => size (tr_urange v))
    | None => None
    end;
  range_begin := fun v =>
    {| tr_base := range_begin (tr_urange v); tr_f := tr_fun v |};
  at_sentinel := fun it => at_sentinel urng_t (tr_base it);
  deref := fun it => x <- deref urng_t (tr_base it) ;; Val (tr_f it x);
  incr := fun it =>
    b <- incr urng_t (tr_base it) ;;
    Val {| tr_base := b; tr_f := tr_f it |}
|}.

(* ================================================================== *)
(** ** [view::trim] *)
(* ================================================================== *)

(** The quality alphabet concept: a letter has a phred score.  The alphabets
    themselves are outside the view layer; the score type
    ([underlying_phred_t], an integral type) is modelled by [Z]. *)
Class QualityAlphabet (Q : Type) : Type := to_phred : Q -> Z.

#[global] Hint Mode QualityAlphabet ! : typeclass_instances.

(** A quality alphabet for the examples: a letter carries its score. *)
Inductive phred : Type := Phred (score : Z).

#[global] Instance phred_quality : QualityAlphabet phred :=
  fun q => match q with Phred score => score end.

(** [trim_fn], a class without data members. *)
Inductive trim_fn : Type := Trim_fn.

Section TrimFn.
Context {irng_t I Q : Type} `{Range irng_t I Q} `{QualityAlphabet Q}.

(** [trim_fn::operator()(irng_t &&, underlying_phred_t const)]: trim
    based on minimum phred score. *)
Definition trim_fn_phred (fn : trim_fn) (irange : irng_t) (threshold : Z)
  : take_while_view irng_t Q :=
  take_while irange (fun value => (to_phred value >=? threshold)%Z).

(** [trim_fn::operator()(irng_t &&, value_type const)]: trim based on a
    letter of the range's alphabet. *)
Definition trim_fn_value (fn : trim_fn) (irange : irng_t) (threshold : Q)
  : take_while_view irng_t Q :=
  trim_fn_phred fn irange (to_phred threshold).
End TrimFn.

(** Overload resolution between the two call operators goes by the type of
    the threshold. *)
Class TrimThreshold (Q threshold_t : Type) : Type :=
  trim_call : forall (irng_t I : Type) `{Range irng_t I Q},
      trim_fn -> irng_t -> threshold_t -> take_while_view irng_t Q.

#[global] Hint Mode TrimThreshold ! ! : typeclass_instances.

#[global] Instance trim_by_phred (Q : Type) `{QualityAlphabet Q}
  : TrimThreshold Q Z :=
  fun irng_t I _ fn irange threshold => trim_fn_phred fn irange threshold.

#[global] Instance trim_by_value (Q : Type) `{QualityAlphabet Q}
  : TrimThreshold Q Q :=
  fun irng_t I _ fn irange threshold => trim_fn_value fn irange threshold.

(** [trim_fn::delegate<threshold_t>]: the threshold and the parent. *)
Record delegate (threshold_t : Type) : Type := Delegate {
  threshold : threshold_t;
  parent : trim_fn
}.

(** [delegate::operator()(irng_t &&)]: forwards to the two-parameter call
    operator of the parent. *)
Definition delegate_call {threshold_t irng_t I Q : Type} `{Range irng_t I Q}
  `{TrimThreshold Q threshold_t}
  (bound_view : delegate threshold_t) (irange : irng_t)
  : take_while_view irng_t Q :=
  trim_call (parent bound_view) irange (threshold bound_view).

(** [trim_fn::operator()(threshold_t const)]: the range-less interface. *)
Definition trim_fn_bind {threshold_t : Type} (fn : trim_fn)
  (threshold : threshold_t) : delegate threshold_t :=
  {| threshold := threshold; parent := fn |}.

(** [operator|(irng_t &&, trim_fn::delegate<threshold_t> const &)] *)
#[global] Instance trim_pipe (threshold_t irng_t I Q : Type)
  `{Range irng_t I Q} `{TrimThreshold Q threshold_t}
  : Pipe irng_t (delegate threshold_t) (take_while_view irng_t Q) :=
  fun irange bound_view => delegate_call bound_view irange.

(** Modelled from the spec: the [deep] wrapper; its header,
    seqan3/range/view/deep.hpp, is missing.  Given a range whose elements are
    themselves ranges it applies the wrapped adaptor to each inner range,
    otherwise it applies the adaptor to the range itself. *)
Record deep (underlying_adaptor_t : Type) : Type := Deep {
  adaptor : underlying_adaptor_t
}.

Class DeepCall (urng_t threshold_t V : Type) : Type :=
  deep_call : deep trim_fn -> urng_t -> threshold_t -> V.

#[global] Hint Mode DeepCall ! ! - : typeclass_instances.

#[global] Instance deep_direct (urng_t I Q threshold_t : Type)
  `{Range urng_t I Q} `{TrimThreshold Q threshold_t}
  : DeepCall urng_t threshold_t (take_while_view urng_t Q) :=
  fun d urange threshold => trim_call (adaptor d) urange threshold.

#[global] Instance deep_recurse (urng_t II inner_t I Q threshold_t : Type)
  `{Range urng_t II inner_t} `{Range inner_t I Q}
  `{TrimThreshold Q threshold_t}
  : DeepCall urng_t threshold_t
      (transform_view urng_t inner_t (take_while_view inner_t Q)) :=
  fun d urange threshold =>
    transform urange (fun inner => trim_call (adaptor d) inner threshold).

(** [inline constexpr auto trim = deep{seqan3::detail::trim_fn{}};] *)
Definition trim : deep trim_fn := Deep Trim_fn.

(* ================================================================== *)
(** ** [view::take], [view::take_exactly], [view::take_exactly_or_throw] *)
(* ================================================================== *)

(** Modelled from the spec: the bounded-take views; their headers,
    seqan3/range/view/take.hpp and take_exactly.hpp, are missing, their unit
    test is not.  The view holds the underlying range and the bound.
    Iteration ends after [target_size] elements or at the underlying end; the
    [or_throw] variant reports the underlying end as
    [unexpected_end_of_input]. *)
Record view_take (exactly or_throw : bool) (urng_t : Type) : Type :=
  View_take {
  tk_urange : urng_t;
  target_size : nat
}.

Arguments View_take exactly or_throw {urng_t} tk_urange target_size.

Record take_iterator (I : Type) : Type := Take_iterator {
  tk_base : I;
  pos : nat;
  max_pos : nat
}.

Section ViewTake.
Context {urng_t I A : Type} `{Range urng_t I A}.
Variables exactly or_throw : bool.

(** Modelled from the spec: equality against the end of a bounded take. *)
Definition tk_at_sentinel (it : take_iterator I) : outcome bool :=
  if max_pos it <=? pos it then Val true
  else
    e <- at_sentinel urng_t (tk_base it) ;;
    if e then
      if or_throw then throw unexpected_end_of_input else Val true
    else Val false.

(** Modelled from the spec: advancing counts the element produced. *)
Definition tk_incr (it : take_iterator I) : outcome (take_iterator I) :=
  b <- incr urng_t (tk_base it) ;;
  Val {| tk_base := b; pos := S (pos it); max_pos := max_pos it |}.

(** Modelled from the spec: iteration starts at the underlying start. *)
Definition tk_begin (v : view_take exactly or_throw urng_t) : take_iterator I :=
  {| tk_base := range_begin (tk_urange v); pos := 0;
     max_pos := target_size v |}.

(** Modelled from the spec: the size a bounded take reports.  Sized is
    granted unconditionally for the exactly variants, which always report the
    bound; the plain variant is sized only if the underlying range is, and
    then reports the smaller of bound and length. *)
Definition tk_size : option (view_take exactly or_throw urng_t -> nat) :=
  if exactly then Some (fun v => target_size v)
  else
    match sized_range urng_t with
    | Some size => Some (fun v => Nat.min (target_size v) (size (tk_urange v)))
    | None => None
    end.

(** Modelled from the spec: construction.  Only [take_exactly_or_throw]
    validates up front: over a sized range shorter than the bound it fails
    with [invalid_argument]. *)
Definition view_take_ctor (urange : urng_t) (size : nat)
  : outcome (view_take exactly or_throw urng_t) :=
  match sized_range urng_t with
  | Some usize =>
      if (usize urange <? size) && (exactly && or_throw)
      then throw invalid_argument
      else Val (View_take exactly or_throw urange size)
  | None => Val (View_take exactly or_throw urange size)
  end.
End ViewTake.

#[global] Instance take_range (exactly or_throw : bool) (urng_t I A : Type)
  `{Range urng_t I A}
  : Range (view_take exactly or_throw urng_t) (take_iterator I) A := {|
  forward_range := forward_range urng_t;
  sized_range := tk_size (urng_t := urng_t) exactly or_throw;
  range_begin := tk_begin (exactly := exactly) (or_throw := or_throw);
  at_sentinel := tk_at_sentinel (urng_t := urng_t) or_throw;
  deref := fun it => deref urng_t (tk_base it);
  incr := tk_incr (urng_t := urng_t)
|}.

(** Modelled from the spec: the adaptor objects in their closure form, a
    bound count waiting for its range, and their two notations. *)
Record take_fn (exactly or_throw : bool) : Type := Take_fn { bound : nat }.

Definition take (n : nat) : take_fn false false := Take_fn false false n.
Definition take_exactly (n : nat) : take_fn true false := Take_fn true false n.
Definition take_exactly_or_throw (n : nat) : take_fn true true :=
  Take_fn true true n.

Definition take_call {exactly or_throw : bool} {urng_t I A : Type}
  `{Range urng_t I A} (fn : take_fn exactly or_throw) (urange : urng_t)
  : outcome (view_take exactly or_throw urng_t) :=
  view_take_ctor exactly or_throw (view_all urange) (bound fn).

#[global] Instance take_pipe (exactly or_throw : bool) (urng_t I A : Type)
  `{Range urng_t I A}
  : Pipe urng_t (take_fn exactly or_throw)
      (outcome (view_take exactly or_throw urng_t)) :=
  fun urange fn => take_call fn urange.

(** The size a sized range reports, [None] for a range that is not sized. *)
Definition size {R I A : Type} `{Range R I A} (r : R) : option nat :=
  match sized_range R with
  | Some f => Some (f r)
  | None => None
  end.

(* ================================================================== *)
(** ** [std::span] *)
(* ================================================================== *)

Module Span.

Local Open Scope Z_scope.

(** [inline constexpr ptrdiff_t dynamic_extent = -1;] *)
Definition dynamic_extent : Z := -1.

(** Addresses, and [index_type = size_t] as a 64-bit unsigned integer: a
    [ptrdiff_t] converted to it wraps around. *)
Definition pointer : Type := Z.
Definition index_type (z : Z) : Z := z mod 2 ^ 64.

(** [span<span_tp, span_extent>]: only the pointer is stored. *)
Record span (span_extent : Z) : Type := Fixed { data_ : pointer }.

(** [span<span_tp, dynamic_extent>]: pointer and size. *)
Record span_dynamic : Type := Dynamic {
  dyn_data_ : pointer;
  size_ : Z
}.

(** [span<T, N>::size()] returns [span_extent] as an [index_type]. *)
Definition size {span_extent : Z} (s : span span_extent) : Z :=
  index_type span_extent.

Definition data {span_extent : Z} (s : span span_extent) : pointer :=
  data_ s.

Definition dyn_size (s : span_dynamic) : Z := size_ s.
Definition dyn_data (s : span_dynamic) : pointer := dyn_data_ s.

(** [span<T, dynamic_extent>::span(const span<OtherElementType,
    _OtherExtent>& other)], for a fixed-extent [other]:
    [data_{other.data()}, size_{other.size()}]. *)
Definition dynamic_of_fixed {span_extent : Z} (other : span span_extent)
  : span_dynamic :=
  {| dyn_data_ := data other; size_ := size other |}.

(** The operand of a [static_assert]: a constant expression with its value,
    or an expression that reads a run-time value, such as a function
    parameter, with the value it would have. *)
Inductive static_operand : Type :=
| ConstantExpression (value : bool)
| RunTimeExpression (value : bool).

(** [static_assert(cond)]: it holds only for a constant expression that is
    true; an operand that is no constant expression makes the member
    ill-formed whatever its value would be. *)
Definition static_assert (cond : static_operand) : outcome unit :=
  match cond with
  | ConstantExpression true => Val tt
  | ConstantExpression false => Fail IllFormed
  | RunTimeExpression _ => Fail IllFormed
  end.

(** [span<T, N>::span(const span<OtherElementType, dynamic_extent>& other)]:
    [data_{other.data()}], and the body is
    [static_assert(span_extent == other.size(), ...)], a comparison of a
    [ptrdiff_t] with the [size_t] read from the parameter [other]. *)
Definition fixed_of_dynamic (span_extent : Z) (other : span_dynamic)
  : outcome (span span_extent) :=
  _ <- static_assert
         (RunTimeExpression (index_type span_extent =? dyn_size other)) ;;
  Val {| data_ := dyn_data other |}.

End Span.

(* ================================================================== *)
(** ** What a conversion produced *)
(* ================================================================== *)

(** The elements of a conversion that ran to its end without failure. *)
Definition finished {I A : Type} (r : option (list A * outcome I))
  : option (list A) :=
  match r with
  | Some (l, Val _) => Some l
  | _ => None
  end.

(** The specification's reading of trimming, to compare the view with: the
    longest leading run of elements that pass, "take while score passes". *)
Fixpoint leading_run {A : Type} (pass : A -> bool) (seq : list A) : list A :=
  match seq with
  | [] => []
  | x :: rest => if pass x then x :: leading_run pass rest else []
  end.

(** A letter passes a threshold when its phred score is at least as high. *)
Definition passes {Q : Type} `{QualityAlphabet Q} (threshold : Z) (q : Q)
  : bool :=
  (to_phred q >=? threshold)%Z.

(* ================================================================== *)
(** ** Inputs of the examples *)
(* ================================================================== *)

(** Whether a character is one of the two end-of-line characters. *)
Definition is_eol (c : ascii) : bool := Ascii.eqb c CR || Ascii.eqb c LF.

Definition foo : list ascii := list_ascii_of_string "foo".
Definition bar : list ascii := list_ascii_of_string "bar".
Definition foobar : list ascii := foo ++ bar.

(** ["foo\nbar"] *)
Definition foo_bar : list ascii := foo ++ LF :: bar.

(** Quality sequences given by their scores. *)
Definition qualities (scores : list Z) : list phred := map Phred scores.

(* ================================================================== *)
(** ** The members of the dynamic-extent [std::span] *)
(* ================================================================== *)

Module SpanOps.

Import Span.
Local Open Scope Z_scope.

(** [assert(cond)], in a build that keeps assertions. *)
Definition assert (cond : bool) : outcome unit :=
  if cond then Val tt else Fail AssertionViolated.

(** [dynamic_extent] where an [index_type] is expected, as in the default
    argument [index_type count = dynamic_extent]: the conversion wraps. *)
Definition npos : Z := index_type dynamic_extent.

Section Members.

(** [sizeof(element_type)]; pointers are byte addresses, so [ptr + n] on an
    element pointer advances by [n * sizeof_element]. *)
Variable sizeof_element : Z.

Definition ptr_add (ptr : pointer) (n : Z) : pointer :=
  ptr + n * sizeof_element.

(** [span(pointer ptr, index_type count) : data_{ptr}, size_{count}] *)
Definition of_ptr_count (ptr : pointer) (count : Z) : span_dynamic :=
  {| dyn_data_ := ptr; size_ := count |}.

(** [span(pointer f, pointer l) : data_{f}, size_{distance(f, l)}]; the
    distance of two element pointers counts elements. *)
Definition of_ptr_ptr (f l : pointer) : span_dynamic :=
  {| dyn_data_ := f; size_ := index_type ((l - f) / sizeof_element) |}.

(** [size_bytes()]: [size_ * sizeof(element_type)], in [size_t]. *)
Definition size_bytes (s : span_dynamic) : Z :=
  index_type (size_ s * sizeof_element).

(** [empty()] *)
Definition empty (s : span_dynamic) : bool := size_ s =? 0.

(** [begin()] and [end()]: [data()] and [data() + size()]. *)
Definition span_begin (s : span_dynamic) : pointer := dyn_data s.
Definition span_end (s : span_dynamic) : pointer :=
  ptr_add (dyn_data s) (dyn_size s).

(** [operator[](index_type idx)]: [assert(idx < size()); return data_[idx];]
    The reference returned is modelled by the address it refers to. *)
Definition at_index (s : span_dynamic) (idx : Z) : outcome pointer :=
  _ <- assert (idx <? dyn_size s) ;;
  Val (ptr_add (dyn_data_ s) idx).

(** [first(index_type count)] *)
Definition first (s : span_dynamic) (count : Z) : outcome span_dynamic :=
  _ <- assert ((count >=? 0) && (count <=? dyn_size s)) ;;
  Val (of_ptr_count (dyn_data s) count).

(** [last(index_type count)] *)
Definition last (s : span_dynamic) (count : Z) : outcome span_dynamic :=
  _ <- assert ((count >=? 0) && (count <=? dyn_size s)) ;;
  Val (of_ptr_count
         (ptr_add (ptr_add (dyn_data s) (dyn_size s)) (- count)) count).

(** [subspan(index_type offset, index_type count = dynamic_extent)]; the
    sums and differences of [index_type] values wrap. *)
Definition subspan (s : span_dynamic) (offset count : Z)
  : outcome span_dynamic :=
  _ <- assert ((offset >=? 0) && (offset <=? dyn_size s)) ;;
  _ <- assert ((count >=? 0) && (count <=? dyn_size s)) ;;
  if count =? npos
  then Val (of_ptr_count (ptr_add (dyn_data s) offset)
              (index_type (dyn_size s - offset)))
  else
    _ <- assert (index_type (offset + count) <=? dyn_size s) ;;
    Val (of_ptr_count (ptr_add (dyn_data s) offset) count).

(** [subspan<offset, count = dynamic_extent>()]: offset and count are
    [ptrdiff_t] template arguments; compared with or added to an
    [index_type] they are converted to it. *)
Definition subspan_static (offset count : Z) (s : span_dynamic)
  : outcome span_dynamic :=
  _ <- assert ((offset >=? 0) && (index_type offset <=? dyn_size s)) ;;
  _ <- assert ((count =? dynamic_extent)
               || (index_type (offset + count) <=? dyn_size s)) ;;
  Val (of_ptr_count (ptr_add (dyn_data s) offset)
         (if count =? dynamic_extent
          then index_type (dyn_size s - index_type offset)
          else index_type count)).

End Members.

(** [as_bytes()]: the same memory as a span of bytes,
    [{reinterpret_cast<const byte *>(data()), size_bytes()}]. *)
Definition as_bytes (sizeof_element : Z) (s : span_dynamic) : span_dynamic :=
  of_ptr_count (dyn_data s) (size_bytes sizeof_element s).

(** A span as the library hands it out: a size that fits the largest object
    ([PTRDIFF_MAX]). *)
Definition well_formed (s : span_dynamic) : Prop :=
  0 <= size_ s < 2 ^ 63.

End SpanOps.

(* ================================================================== *)
(** ** Characters of a line *)
(* ================================================================== *)

(** A character that is no end-of-line character. *)
Definition non_eol (c : ascii) : bool := negb (is_eol c).

(* ================================================================== *)
(** * Properties *)
(* ================================================================== *)

Unset Implicit Arguments.

(** ** The copy loop *)

Section CopyFacts.
Context {R I A : Type} `{Range R I A}.

(** With enough fuel the loop computes what the big-step relation says. *)
Lemma copy_yields {it : I} {l : list A} {stop : outcome I} :
  yields R it l stop ->
  forall (fuel : nat) (ret : list A),
    length l < fuel -> copy R fuel it ret = Some (ret ++ l, stop).
Proof.
  induction 1 as [it Hend | it f Hcmp | it f Hcmp Hd | it x f Hcmp Hd Hi
                 | it x it' l stop Hcmp Hd Hi Hrest IH];
    intros [|fuel] ret Hfuel; simpl in Hfuel; try lia; simpl.
  - rewrite Hend, app_nil_r. reflexivity.
  - rewrite Hcmp, app_nil_r. reflexivity.
  - rewrite Hcmp, Hd, app_nil_r. reflexivity.
  - rewrite Hcmp, Hd, Hi. reflexivity.
  - rewrite Hcmp, Hd, Hi, IH by lia. rewrite <- app_assoc. reflexivity.
Qed.

Lemma to_container_yields {v : R} {l : list A} {stop : outcome I} :
  yields R (range_begin v) l stop ->
  forall fuel : nat, length l < fuel -> to_container fuel v = Some (l, stop).
Proof.
  intros Hy fuel Hfuel. unfold to_container.
  rewrite (copy_yields Hy) by assumption. reflexivity.
Qed.

(** The loop is deterministic. *)
Lemma yields_deterministic (it : I) (l1 l2 : list A) (s1 s2 : outcome I) :
  yields R it l1 s1 -> yields R it l2 s2 -> l1 = l2 /\ s1 = s2.
Proof.
  intros H1 H2.
  pose proof (copy_yields H1 (S (length l1 + length l2)) [] ltac:(lia)) as E1.
  pose proof (copy_yields H2 (S (length l1 + length l2)) [] ltac:(lia)) as E2.
  rewrite E1 in E2. inversion E2. split; reflexivity.
Qed.
End CopyFacts.

(** A container yields its elements and stops at its end. *)
Lemma container_yields (A : Type) (c : list A) :
  yields (list A) c c (Val []).
Proof.
  induction c as [|x c IH].
  - apply yields_end. reflexivity.
  - eapply yields_step; [reflexivity | reflexivity | reflexivity | exact IH].
Qed.

(** The single-pass wrapper changes capabilities, not elements. *)
Lemma single_pass_yields (R I A : Type) `{Range R I A}
  (it : I) (l : list A) (stop : outcome I) :
  yields R it l stop -> yields (single_pass_input R) it l stop.
Proof.
  induction 1;
    [ apply yields_end | apply yields_cmp_fail | apply yields_deref_fail
    | eapply yields_incr_fail | eapply yields_step ]; eauto.
Qed.

(* ================================================================== *)
(** ** [view::take_line] *)
(* ================================================================== *)

Section TakeLineFacts.
Context {urng_t base_base_t : Type} `{Range urng_t base_base_t ascii}.

(** Over a forward range the view scans while it sees no end-of-line
    character.  A line that runs into the end of the input is returned whole
    by [take_line] and is an [unexpected_end_of_input] for
    [take_line_or_throw], raised by the comparison that finds the end. *)
Lemma take_line_forward_no_eol (require_eol : bool)
  (it e : base_base_t) (l : list ascii) :
  forward_range urng_t = true ->
  yields urng_t it l (Val e) ->
  Forall (fun c => is_eol c = false) l ->
  yields (view_take_line require_eol urng_t) (of_base it) l
    (if require_eol then throw unexpected_end_of_input
     else Val (of_base e)).
Proof.
  intros Hfwd Hy. remember (Val e) as stop eqn:Hstop.
  induction Hy as [it Hend | | | | it x it' l stop Hcmp Hd Hi Hrest IH];
    try discriminate; intros Hl.
  - injection Hstop as ->.
    destruct require_eol.
    + apply yields_cmp_fail. simpl. unfold tl_at_sentinel. simpl.
      rewrite Hfwd, Hend. reflexivity.
    + apply yields_end. simpl. unfold tl_at_sentinel. simpl.
      rewrite Hfwd, Hend. reflexivity.
  - inversion Hl as [|? ? Hx Hl']; subst.
    unfold is_eol in Hx. apply orb_false_iff in Hx as [Hcr Hlf].
    eapply yields_step.
    + simpl. unfold tl_at_sentinel, tl_deref. simpl.
      rewrite Hfwd, Hcmp. simpl. rewrite Hd. simpl. rewrite Hcr.
      simpl. rewrite Hlf. reflexivity.
    + simpl. unfold tl_deref. simpl. exact Hd.
    + simpl. unfold tl_incr. simpl. rewrite Hi, Hfwd. reflexivity.
    + apply IH; [reflexivity | assumption].
Qed.

(** Over a single-pass range, stepping onto the end of the input makes
    [operator++] read the element under a past-the-end cursor: the increment
    looks for an end-of-line character without first comparing against the
    sentinel. *)
Lemma take_line_single_pass_last_incr (it it' : base_base_t) (a : bool) :
  forward_range urng_t = false ->
  incr urng_t it = Val it' ->
  deref urng_t it' = undefined ->
  incr (view_take_line false urng_t) {| base := it; at_end := a |} = undefined.
Proof.
  intros Hfwd Hi Hd. simpl. unfold tl_incr, tl_deref. simpl.
  rewrite Hi, Hfwd. simpl. rewrite Hd. reflexivity.
Qed.
End TakeLineFacts.

(** A non-empty line without end-of-line character, read through a
    single-pass wrapper of a container: every element is produced, then the
    last increment has no defined result, for either variant. *)
Lemma take_line_single_pass_no_eol (require_eol : bool) (l : list ascii)
  (ret : list ascii) (fuel : nat) :
  l <> [] ->
  Forall (fun c => is_eol c = false) l ->
  length l <= fuel ->
  copy (view_take_line require_eol (single_pass_input (list ascii))) fuel
    (of_base l) ret
  = Some (ret ++ l, undefined).
Proof.
  revert ret fuel.
  induction l as [|x l IH]; intros ret fuel Hne Hl Hfuel; [congruence|].
  inversion Hl as [|? ? Hx Hl']; subst.
  pose proof Hx as Hx'. unfold is_eol in Hx'.
  apply orb_false_iff in Hx' as [Hcr Hlf].
  destruct fuel as [|fuel]; [simpl in Hfuel; lia|].
  destruct l as [|y l].
  - simpl. unfold tl_at_sentinel, tl_deref, tl_incr. simpl.
    rewrite Hcr, Hlf. reflexivity.
  - inversion Hl' as [|? ? Hy Hl'']; subst.
    pose proof Hy as Hy'. unfold is_eol in Hy'.
    apply orb_false_iff in Hy' as [Hycr Hylf].
    set (V := view_take_line require_eol (single_pass_input (list ascii))).
    assert (Hcmp : at_sentinel V (of_base (x :: y :: l)) = Val false).
    { simpl. unfold tl_at_sentinel, tl_deref. simpl.
      rewrite Hcr, Hlf. reflexivity. }
    assert (Hincr : incr V (of_base (x :: y :: l)) = Val (of_base (y :: l))).
    { simpl. unfold tl_incr, tl_deref. simpl. rewrite Hycr. simpl.
      rewrite Hylf. reflexivity. }
    cbn [copy]. rewrite Hcmp, Hincr.
    replace (deref V (of_base (x :: y :: l))) with (Val x) by reflexivity.
    rewrite IH; [ | congruence | assumption | simpl in *; lia ].
    rewrite <- app_assoc. reflexivity.
Qed.

(** The same over a container, in terms of the conversion. *)
Lemma take_line_container_no_eol (s : list ascii) (fuel : nat) :
  Forall (fun c => is_eol c = false) s ->
  length s < fuel ->
  to_container fuel (s |> take_line) = Some (s, Val (of_base []))
  /\ to_container fuel (s |> take_line_or_throw)
     = Some (s, throw unexpected_end_of_input).
Proof.
  intros Hs Hfuel. split.
  - apply to_container_yields; [|assumption].
    apply (take_line_forward_no_eol (urng_t := list ascii) false s [] s);
      [reflexivity | apply container_yields | assumption].
  - apply to_container_yields; [|assumption].
    apply (take_line_forward_no_eol (urng_t := list ascii) true s [] s);
      [reflexivity | apply container_yields | assumption].
Qed.

(** C1: [take_line] over the multi-pass input ["foo\\nbar"] yields ["foo"]
    and leaves the underlying cursor on the line feed; over a single-pass
    wrapping of the same input it yields ["foo"] as well, but the iterator has
    stepped over the line feed and the underlying cursor is on ['b']. *)
Theorem take_line_foo_bar :
  to_container 8 (foo_bar |> take_line)
  = Some (foo, Val {| base := LF :: bar; at_end := false |})
  /\ to_container 8 (SinglePass foo_bar |> take_line)
     = Some (foo, Val {| base := bar; at_end := true |}).
Proof. split; reflexivity. Qed.

(** C2, at the input on which the code departs from it: reading the line
    ["foo"], which has no end-of-line character, through a single-pass
    wrapper.  All three characters are produced, then the third increment
    dereferences the cursor at the end of the input; neither does
    [take_line] finish, nor does [take_line_or_throw] get to throw. *)
Theorem take_line_single_pass_foo :
  to_container 8 (SinglePass foo |> take_line) = Some (foo, undefined)
  /\ to_container 8 (SinglePass foo |> take_line_or_throw)
     = Some (foo, undefined).
Proof. split; reflexivity. Qed.

(** C10: over a single-pass range whose first element is an end-of-line
    character, the begin iterator of a [take_line] view equals the end at
    once, its flag is not set and the underlying cursor has not moved; the
    conversion writes nothing and stops at that very iterator, so the
    comparison has consumed nothing.  The flag is not set by [begin()] for
    any view: only an increment sets it. *)
Theorem take_line_begin_at_eol {urng_t base_base_t : Type}
  `{Range urng_t base_base_t ascii}
  (require_eol : bool) (r : urng_t) (c : ascii) :
  forward_range urng_t = false ->
  at_sentinel urng_t (range_begin r) = Val false ->
  deref urng_t (range_begin r) = Val c ->
  is_eol c = true ->
  let v := View_take_line require_eol r in
  at_sentinel (view_take_line require_eol urng_t) (range_begin v) = Val true
  /\ at_end (range_begin v) = false
  /\ base (range_begin v) = range_begin r
  /\ (forall fuel : nat,
         to_container (S fuel) v = Some ([], Val (range_begin v)))
  /\ (forall w : view_take_line require_eol urng_t,
         at_end (range_begin w) = false).
Proof.
  intros Hfwd Hcmp Hd Hc v.
  assert (Heq : at_sentinel (view_take_line require_eol urng_t)
                  (range_begin v) = Val true).
  { simpl. unfold tl_at_sentinel, tl_deref. simpl.
    rewrite Hfwd, Hcmp. simpl. rewrite Hd. simpl.
    unfold is_eol in Hc. destruct (Ascii.eqb c CR); [reflexivity|].
    simpl in Hc. rewrite Hc. reflexivity. }
  repeat split; try reflexivity.
  - exact Heq.
  - intros fuel. unfold to_container. cbn [copy]. rewrite Heq. reflexivity.
Qed.

Lemma take_line_begin_at_eol_witness :
  at_sentinel (view_take_line false (single_pass_input (list ascii)))
    (range_begin (View_take_line false (SinglePass (LF :: bar)))) = Val true
  /\ at_end (range_begin (View_take_line false (SinglePass (LF :: bar))))
     = false
  /\ base (range_begin (View_take_line false (SinglePass (LF :: bar))))
     = LF :: bar
  /\ (forall fuel : nat,
         to_container (S fuel) (View_take_line false (SinglePass (LF :: bar)))
         = Some ([], Val (range_begin
                            (View_take_line false (SinglePass (LF :: bar))))))
  /\ (forall w : view_take_line false (single_pass_input (list ascii)),
         at_end (range_begin w) = false).
Proof.
  exact (take_line_begin_at_eol false (SinglePass (LF :: bar)) LF
           eq_refl eq_refl eq_refl eq_refl).
Defined.

(* ================================================================== *)
(** ** [view::trim] *)
(* ================================================================== *)

Section LeadingRun.
Context {A : Type} (pass : A -> bool).

(** The leading run is a prefix of the sequence, ... *)
Lemma leading_run_prefix (seq : list A) :
  exists rest : list A, seq = leading_run pass seq ++ rest
    /\ match rest with [] => True | x :: _ => pass x = false end.
Proof.
  induction seq as [|x seq [rest [IH Hrest]]]; simpl.
  - exists []. split; [reflexivity | exact I].
  - destruct (pass x) eqn:Hx.
    + exists rest. split; [simpl; congruence | exact Hrest].
    + exists (x :: seq). split; [reflexivity | exact Hx].
Qed.

(** ... all its elements pass, ... *)
Lemma leading_run_pass (seq : list A) :
  Forall (fun x => pass x = true) (leading_run pass seq).
Proof.
  induction seq as [|x seq IH]; simpl; [constructor|].
  destruct (pass x) eqn:Hx; constructor; assumption.
Qed.

Lemma leading_run_length (seq : list A) :
  length (leading_run pass seq) <= length seq.
Proof.
  induction seq as [|x seq IH]; simpl; [lia|].
  destruct (pass x); simpl; lia.
Qed.

(** ... and no prefix of passing elements is longer. *)
Lemma leading_run_longest (seq run rest : list A) :
  seq = run ++ rest ->
  Forall (fun x => pass x = true) run ->
  length run <= length (leading_run pass seq).
Proof.
  revert run rest.
  induction seq as [|x seq IH]; intros run rest Hseq Hrun.
  - destruct run; [simpl; lia | discriminate].
  - destruct run as [|y run]; [simpl; lia|].
    injection Hseq as <- Hseq.
    inversion Hrun as [|? ? Hy Hrun']; subst.
    simpl. rewrite Hy. simpl.
    specialize (IH run rest eq_refl Hrun'). lia.
Qed.
End LeadingRun.

Section TakeWhileFacts.
Context {urng_t I A : Type} `{Range urng_t I A}.

(** [take_while] over a range that yields [l] yields the leading run of [l]
    and leaves the underlying cursor where the run stopped. *)
Lemma take_while_yields (pred : A -> bool) (it e : I) (l : list A) :
  yields urng_t it l (Val e) ->
  exists (stop : I) (rest : list A),
    l = leading_run pred l ++ rest
    /\ yields urng_t stop rest (Val e)
    /\ yields (take_while_view urng_t A)
         {| tw_base := it; tw_fun := pred |} (leading_run pred l)
         (Val {| tw_base := stop; tw_fun := pred |}).
Proof.
  intros Hy. remember (Val e) as stp eqn:Hstp.
  induction Hy as [it Hend | | | | it x it' l stp Hcmp Hd Hi Hrest IH];
    try discriminate.
  - injection Hstp as ->. exists e, []. repeat split.
    + apply yields_end. assumption.
    + apply yields_end. simpl. rewrite Hend. reflexivity.
  - subst stp. destruct (IH eq_refl) as (stop & rest & Hl & Hstop & Hrun).
    simpl. destruct (pred x) eqn:Hx.
    + exists stop, rest. repeat split.
      * simpl. congruence.
      * exact Hstop.
      * eapply yields_step; [ | | | exact Hrun].
        -- simpl. rewrite Hcmp. simpl. rewrite Hd. simpl. rewrite Hx.
           reflexivity.
        -- simpl. exact Hd.
        -- simpl. rewrite Hi. reflexivity.
    + exists it, (x :: l). repeat split.
      * eapply yields_step; eassumption.
      * apply yields_end. simpl. rewrite Hcmp. simpl. rewrite Hd. simpl.
        rewrite Hx. reflexivity.
Qed.
End TakeWhileFacts.

(** C6: for every range of quality letters and every threshold, the trimmed
    view yields the longest leading run of letters whose phred score is at
    least the threshold: a prefix of the sequence, all of whose scores pass,
    followed by nothing or by a letter whose score is below the threshold,
    and no passing prefix is longer.  The conversion finishes, with the
    underlying cursor on the rest; a threshold given as a letter acts through
    its score. *)
Theorem trim_leading_run {irng_t I Q : Type} `{Range irng_t I Q}
  `{QualityAlphabet Q}
  (irange : irng_t) (seq : list Q) (e : I) (threshold : Z) :
  yields irng_t (range_begin irange) seq (Val e) ->
  exists (run rest : list Q) (stop : take_while_iterator I Q),
    seq = run ++ rest
    /\ Forall (fun q => (to_phred q >= threshold)%Z) run
    /\ (rest = [] \/
        exists q rest', rest = q :: rest' /\ (to_phred q < threshold)%Z)
    /\ (forall run' rest', seq = run' ++ rest' ->
          Forall (fun q => (to_phred q >= threshold)%Z) run' ->
          length run' <= length run)
    /\ run = leading_run (passes threshold) seq
    /\ yields irng_t (tw_base stop) rest (Val e)
    /\ (forall fuel : nat, length seq < fuel ->
          to_container fuel (trim_fn_phred Trim_fn irange threshold)
          = Some (run, Val stop))
    /\ (forall (letter : Q) (fuel : nat),
          to_phred letter = threshold -> length seq < fuel ->
          to_container fuel (trim_fn_value Trim_fn irange letter)
          = Some (run, Val stop)).
Proof.
  intros Hy.
  destruct (take_while_yields (passes threshold) _ _ _ Hy)
    as (stop & rest & Hseq & Hstop & Hrun).
  exists (leading_run (passes threshold) seq), rest,
    {| tw_base := stop; tw_fun := passes threshold |}.
  pose proof (leading_run_length (passes threshold) seq) as Hlen.
  assert (Hconv : forall fuel : nat, length seq < fuel ->
            to_container fuel (trim_fn_phred Trim_fn irange threshold)
            = Some (leading_run (passes threshold) seq,
                    Val {| tw_base := stop; tw_fun := passes threshold |})).
  { intros fuel Hfuel. apply to_container_yields; [exact Hrun | lia]. }
  repeat split.
  - exact Hseq.
  - eapply Forall_impl; [|apply leading_run_pass].
    intros q Hq. unfold passes in Hq. lia.
  - destruct (leading_run_prefix (passes threshold) seq)
      as (rest' & Hseq' & Hrest').
    assert (rest' = rest) as ->
        by (apply (app_inv_head (leading_run (passes threshold) seq));
            congruence).
    destruct rest as [|q rest]; [left; reflexivity|].
    right. exists q, rest. split; [reflexivity|].
    unfold passes in Hrest'. lia.
  - intros run' rest' Hseq' Hrun'.
    apply (leading_run_longest (passes threshold) seq run' rest' Hseq').
    eapply Forall_impl; [|exact Hrun'].
    intros q Hq. unfold passes. simpl in Hq. lia.
  - exact Hstop.
  - exact Hconv.
  - intros letter fuel <- Hfuel. unfold trim_fn_value. apply Hconv, Hfuel.
Qed.

Lemma trim_leading_run_witness :
  exists (run rest : list phred)
         (stop : take_while_iterator (list phred) phred),
    qualities [30; 25; 10; 28]%Z = run ++ rest
    /\ Forall (fun q => (to_phred q >= 20)%Z) run
    /\ (rest = [] \/
        exists q rest', rest = q :: rest' /\ (to_phred q < 20)%Z)
    /\ (forall run' rest', qualities [30; 25; 10; 28]%Z = run' ++ rest' ->
          Forall (fun q => (to_phred q >= 20)%Z) run' ->
          length run' <= length run)
    /\ run = leading_run (passes 20%Z) (qualities [30; 25; 10; 28]%Z)
    /\ yields (list phred) (tw_base stop) rest (Val [])
    /\ (forall fuel : nat, length (qualities [30; 25; 10; 28]%Z) < fuel ->
          to_container fuel
            (trim_fn_phred Trim_fn (qualities [30; 25; 10; 28]%Z) 20%Z)
          = Some (run, Val stop))
    /\ (forall (letter : phred) (fuel : nat),
          to_phred letter = 20%Z ->
          length (qualities [30; 25; 10; 28]%Z) < fuel ->
          to_container fuel
            (trim_fn_value Trim_fn (qualities [30; 25; 10; 28]%Z) letter)
          = Some (run, Val stop)).
Proof.
  apply (trim_leading_run (qualities [30; 25; 10; 28]%Z)
           (qualities [30; 25; 10; 28]%Z) [] 20%Z).
  repeat (eapply yields_step; [reflexivity | reflexivity | reflexivity |]).
  apply yields_end. reflexivity.
Defined.

(** The example of the specification: scores 30, 25, 10 and then anything,
    trimmed at threshold 20, give the first two letters, through the adaptor
    object [view::trim] and both forms of the threshold. *)
Lemma trim_example_scores (later : list Z) :
  finished (to_container (4 + length later)
              (deep_call trim (qualities ([30; 25; 10] ++ later)%Z) 20%Z))
  = Some (qualities [30; 25]%Z)
  /\ finished (to_container (4 + length later)
                 (deep_call trim (qualities ([30; 25; 10] ++ later)%Z)
                    (Phred 20)))
     = Some (qualities [30; 25]%Z).
Proof. split; reflexivity. Qed.

Section TransformFacts.
Context {urng_t I A B : Type} `{Range urng_t I A}.

(** [transform] maps the function over what the underlying range yields. *)
Lemma transform_yields (f : A -> B) (it e : I) (l : list A) :
  yields urng_t it l (Val e) ->
  yields (transform_view urng_t A B) {| tr_base := it; tr_f := f |}
    (map f l) (Val {| tr_base := e; tr_f := f |}).
Proof.
  intros Hy. remember (Val e) as stp eqn:Hstp.
  induction Hy as [it Hend | | | | it x it' l stp Hcmp Hd Hi Hrest IH];
    try discriminate.
  - injection Hstp as ->. apply yields_end. exact Hend.
  - simpl. eapply yields_step; [exact Hcmp | | | apply IH; exact Hstp].
    + simpl. rewrite Hd. reflexivity.
    + simpl. rewrite Hi. reflexivity.
Qed.
End TransformFacts.

(** C7: trimming a range of ranges keeps the outer range as it is and trims
    every inner range by itself: the result yields, position by position,
    the view that [trim_fn] builds over that inner range alone, so there are
    as many inner views as inner ranges and each holds the leading run of
    its own range.  The recursion goes one level down: the views handed out
    are [take_while] views over the inner ranges. *)
Theorem trim_deep_each_inner {urng_t II Q : Type}
  `{Range urng_t II (list Q)} `{QualityAlphabet Q}
  (urange : urng_t) (inners : list (list Q)) (e : II) (threshold : Z) :
  yields urng_t (range_begin urange) inners (Val e) ->
  exists (views : list (take_while_view (list Q) Q))
         (stop : transform_iterator II (list Q)
                   (take_while_view (list Q) Q)),
    (forall fuel : nat, length inners < fuel ->
       to_container fuel (deep_call trim urange threshold)
       = Some (views, Val stop))
    /\ views = map (fun inner => trim_fn_phred Trim_fn inner threshold) inners
    /\ length views = length inners
    /\ tr_base stop = e
    /\ Forall2
         (fun inner view =>
            forall fuel : nat, length inner < fuel ->
              finished (to_container fuel view)
              = Some (leading_run (passes threshold) inner))
         inners views.
Proof.
  intros Hy.
  set (f := fun inner : list Q => trim_fn_phred Trim_fn inner threshold).
  exists (map f inners), {| tr_base := e; tr_f := f |}.
  repeat split.
  - intros fuel Hfuel. apply to_container_yields.
    + apply (transform_yields f _ _ _ Hy).
    + rewrite length_map. exact Hfuel.
  - apply length_map.
  - clear Hy. induction inners as [|inner inners IH]; simpl; constructor.
    + intros fuel Hfuel.
      destruct (take_while_yields (passes threshold) inner [] inner
                  (container_yields _ inner))
        as (stop & rest & _ & _ & Hrun).
      pose proof (leading_run_length (passes threshold) inner) as Hlen.
      unfold f.
      rewrite (to_container_yields
                 (v := trim_fn_phred Trim_fn inner threshold) Hrun) by lia.
      reflexivity.
    + exact IH.
Qed.

Lemma trim_deep_each_inner_witness :
  exists (views : list (take_while_view (list phred) phred))
         (stop : transform_iterator (list (list phred)) (list phred)
                   (take_while_view (list phred) phred)),
    (forall fuel : nat,
       length [qualities [30; 10]%Z; qualities [5; 40]%Z] < fuel ->
       to_container fuel
         (deep_call trim [qualities [30; 10]%Z; qualities [5; 40]%Z] 20%Z)
       = Some (views, Val stop))
    /\ views = map (fun inner => trim_fn_phred Trim_fn inner 20%Z)
                 [qualities [30; 10]%Z; qualities [5; 40]%Z]
    /\ length views = length [qualities [30; 10]%Z; qualities [5; 40]%Z]
    /\ tr_base stop = []
    /\ Forall2
         (fun inner view =>
            forall fuel : nat, length inner < fuel ->
              finished (to_container fuel view)
              = Some (leading_run (passes 20%Z) inner))
         [qualities [30; 10]%Z; qualities [5; 40]%Z] views.
Proof.
  apply (trim_deep_each_inner
           [qualities [30; 10]%Z; qualities [5; 40]%Z]
           [qualities [30; 10]%Z; qualities [5; 40]%Z] [] 20%Z).
  repeat (eapply yields_step; [reflexivity | reflexivity | reflexivity |]).
  apply yields_end. reflexivity.
Defined.

(** The example of the specification: [[30,10],[5,40]] trimmed at 20 is an
    outer sequence of two views, with one element and with none. *)
Lemma trim_deep_example :
  option_map (map (fun view => finished (to_container 3 view)))
    (finished
       (to_container 3
          (deep_call trim [qualities [30; 10]%Z; qualities [5; 40]%Z] 20%Z)))
  = Some [Some (qualities [30]%Z); Some []].
Proof. reflexivity. Qed.

(* ================================================================== *)
(** ** The bounded-take family *)
(* ================================================================== *)

Section TakeFacts.
Context {urng_t I A : Type} `{Range urng_t I A}.
Variables exactly or_throw : bool.

(** With at least [k] elements ahead, a bounded take with [k] elements to go
    yields the next [k] elements and stops there, whatever the variant. *)
Lemma take_yields_bounded (it e : I) (l : list A) :
  yields urng_t it l (Val e) ->
  forall p m k : nat,
    m = p + k -> k <= length l ->
    exists stop : I,
      yields urng_t stop (skipn k l) (Val e)
      /\ yields (view_take exactly or_throw urng_t)
           {| tk_base := it; pos := p; max_pos := m |} (firstn k l)
           (Val {| tk_base := stop; pos := m; max_pos := m |}).
Proof.
  intros Hy. remember (Val e) as stp eqn:Hstp.
  induction Hy as [it Hend | | | | it x it' l stp Hcmp Hd Hi Hrest IH];
    try discriminate; intros p m k Hm Hk.
  - injection Hstp as ->. simpl in Hk.
    assert (k = 0) as -> by lia. assert (m = p) as -> by lia.
    exists e. split; [apply yields_end; exact Hend|].
    apply yields_end. simpl. unfold tk_at_sentinel. simpl.
    rewrite Nat.leb_refl. reflexivity.
  - destruct k as [|k].
    + assert (m = p) as -> by lia. exists it. split.
      * simpl. eapply yields_step; eassumption.
      * apply yields_end. simpl. unfold tk_at_sentinel. simpl.
        rewrite Nat.leb_refl. reflexivity.
    + simpl in Hk.
      destruct (IH Hstp (S p) m k ltac:(lia) ltac:(lia)) as (stop & Hs & Ht).
      exists stop. split; [exact Hs|].
      simpl. eapply yields_step; [ | | | exact Ht].
      * simpl. unfold tk_at_sentinel. simpl.
        replace (m <=? p) with false by (symmetry; apply Nat.leb_gt; lia).
        rewrite Hcmp. reflexivity.
      * simpl. exact Hd.
      * simpl. unfold tk_incr. simpl. rewrite Hi. reflexivity.
Qed.

(** With fewer than [k] elements ahead, every element is yielded and the
    underlying end is met: a silent stop, or [unexpected_end_of_input] for
    the throwing variant. *)
Lemma take_yields_short (it e : I) (l : list A) :
  yields urng_t it l (Val e) ->
  forall p m : nat,
    p + length l < m ->
    yields (view_take exactly or_throw urng_t)
      {| tk_base := it; pos := p; max_pos := m |} l
      (if or_throw then throw unexpected_end_of_input
       else Val {| tk_base := e; pos := p + length l; max_pos := m |}).
Proof.
  intros Hy. remember (Val e) as stp eqn:Hstp.
  induction Hy as [it Hend | | | | it x it' l stp Hcmp Hd Hi Hrest IH];
    try discriminate; intros p m Hm.
  - injection Hstp as ->. simpl in Hm. rewrite Nat.add_0_r in *.
    destruct or_throw.
    + apply yields_cmp_fail. simpl. unfold tk_at_sentinel. simpl.
      replace (m <=? p) with false by (symmetry; apply Nat.leb_gt; lia).
      rewrite Hend. reflexivity.
    + apply yields_end. simpl. unfold tk_at_sentinel. simpl.
      replace (m <=? p) with false by (symmetry; apply Nat.leb_gt; lia).
      rewrite Hend. reflexivity.
  - simpl in Hm. eapply yields_step.
    + simpl. unfold tk_at_sentinel. simpl.
      replace (m <=? p) with false by (symmetry; apply Nat.leb_gt; lia).
      rewrite Hcmp. reflexivity.
    + simpl. exact Hd.
    + simpl. unfold tk_incr. simpl. rewrite Hi. reflexivity.
    + specialize (IH Hstp (S p) m ltac:(lia)).
      replace (p + length (x :: l)) with (S p + length l)
        by (simpl; lia).
      exact IH.
Qed.
End TakeFacts.

Section TakeSilent.
Context {urng_t I A : Type} `{Range urng_t I A}.
Variable exactly : bool.

(** A bounded take that does not throw yields the first [n] elements, all of
    them if there are fewer, and finishes. *)
Lemma take_yields_firstn (r : urng_t) (e : I) (l : list A) (n : nat) :
  yields urng_t (range_begin r) l (Val e) ->
  exists stop : take_iterator I,
    yields (view_take exactly false urng_t)
      (range_begin (View_take exactly false r n)) (firstn n l) (Val stop).
Proof.
  intros Hy. destruct (le_lt_dec n (length l)) as [Hle | Hlt].
  - destruct (take_yields_bounded exactly false _ _ _ Hy 0 n n
                eq_refl Hle) as (stop & _ & Ht).
    eexists. exact Ht.
  - rewrite firstn_all2 by lia.
    eexists. apply (take_yields_short exactly false _ _ _ Hy 0 n). lia.
Qed.

(** Constructing such a view never fails. *)
Lemma take_ctor_silent (r : urng_t) (n : nat) :
  view_take_ctor exactly false r n = Val (View_take exactly false r n).
Proof.
  unfold view_take_ctor. destruct (sized_range urng_t); [|reflexivity].
  rewrite andb_false_r, andb_false_r. reflexivity.
Qed.
End TakeSilent.

Lemma firstn_min_length {A : Type} (n : nat) (l : list A) :
  firstn (Nat.min n (length l)) l = firstn n l.
Proof.
  destruct (Nat.min_spec n (length l)) as [[_ ->] | [Hle ->]];
    [reflexivity|].
  rewrite firstn_all, firstn_all2 by lia. reflexivity.
Qed.

(** C3: over a single-pass wrapping of a sequence with fewer than [n]
    elements, [take_exactly] constructs a view that reports size [n], and
    iterating it yields exactly the elements there are and finishes without
    any failure. *)
Theorem take_exactly_single_pass_shorter {urng_t I A : Type}
  `{Range urng_t I A} (s : urng_t) (l : list A) (e : I) (n : nat) :
  yields urng_t (range_begin s) l (Val e) ->
  length l < n ->
  exists v : view_take true false (single_pass_input urng_t),
    (SinglePass s |> take_exactly n) = Val v
    /\ size v = Some n
    /\ (forall fuel : nat, length l < fuel ->
          to_container fuel v
          = Some (l, Val {| tk_base := e; pos := length l; max_pos := n |})).
Proof.
  intros Hy Hn. exists (View_take true false (SinglePass s) n).
  repeat split.
  intros fuel Hfuel. apply to_container_yields; [|exact Hfuel].
  apply (take_yields_short (urng_t := single_pass_input urng_t) true false
           (range_begin s) e l (single_pass_yields _ _ _ _ _ _ Hy) 0 n Hn).
Qed.

Lemma take_exactly_single_pass_shorter_witness :
  exists v : view_take true false (single_pass_input (list ascii)),
    (SinglePass foo |> take_exactly 4) = Val v
    /\ size v = Some 4
    /\ (forall fuel : nat, length foo < fuel ->
          to_container fuel v
          = Some (foo,
                  Val {| tk_base := []; pos := length foo; max_pos := 4 |})).
Proof.
  apply (take_exactly_single_pass_shorter foo foo [] 4).
  - repeat (eapply yields_step; [reflexivity | reflexivity | reflexivity |]).
    apply yields_end. reflexivity.
  - simpl. lia.
Defined.

(** C4: over a sized range that reports fewer than [n] elements,
    constructing [take_exactly_or_throw] fails with [invalid_argument], so no
    view exists and nothing is produced; over the single-pass wrapping of the
    same range, which is not sized, construction succeeds and iteration
    yields the elements there are and then fails with
    [unexpected_end_of_input] on meeting the underlying end. *)
Theorem take_exactly_or_throw_shorter {urng_t I A : Type}
  `{Range urng_t I A} (s : urng_t) (usize : urng_t -> nat)
  (l : list A) (e : I) (n : nat) :
  sized_range urng_t = Some usize ->
  usize s = length l ->
  yields urng_t (range_begin s) l (Val e) ->
  length l < n ->
  (s |> take_exactly_or_throw n) = throw invalid_argument
  /\ exists v : view_take true true (single_pass_input urng_t),
       (SinglePass s |> take_exactly_or_throw n) = Val v
       /\ (forall fuel : nat, length l < fuel ->
             to_container fuel v
             = Some (l, throw unexpected_end_of_input)).
Proof.
  intros Hsized Hsize Hy Hn. split.
  - unfold pipe, take_pipe, take_call, view_take_ctor, view_all. simpl.
    rewrite Hsized, Hsize.
    replace (length l <? n) with true by (symmetry; apply Nat.ltb_lt; lia).
    reflexivity.
  - exists (View_take true true (SinglePass s) n). split; [reflexivity|].
    intros fuel Hfuel. apply to_container_yields; [|exact Hfuel].
    apply (take_yields_short (urng_t := single_pass_input urng_t) true true
             (range_begin s) e l (single_pass_yields _ _ _ _ _ _ Hy) 0 n Hn).
Qed.

Lemma take_exactly_or_throw_shorter_witness :
  (foo |> take_exactly_or_throw 4) = throw invalid_argument
  /\ exists v : view_take true true (single_pass_input (list ascii)),
       (SinglePass foo |> take_exactly_or_throw 4) = Val v
       /\ (forall fuel : nat, length foo < fuel ->
             to_container fuel v
             = Some (foo, throw unexpected_end_of_input)).
Proof.
  apply (take_exactly_or_throw_shorter foo (@length ascii) foo [] 4).
  - reflexivity.
  - reflexivity.
  - repeat (eapply yields_step; [reflexivity | reflexivity | reflexivity |]).
    apply yields_end. reflexivity.
  - simpl. lia.
Defined.

(** C5: a take of [a] piped into a take of [b] yields the first
    [min a (min b (length s))] elements of the sequence, in order, and that
    many of them. *)
Theorem take_take_min {urng_t I A : Type} `{Range urng_t I A}
  (s : urng_t) (l : list A) (e : I) (a b : nat) :
  yields urng_t (range_begin s) l (Val e) ->
  exists (v : view_take false false urng_t)
         (w : view_take false false (view_take false false urng_t))
         (stop : take_iterator (take_iterator I)),
    (s |> take a) = Val v
    /\ (v |> take b) = Val w
    /\ (forall fuel : nat, length l < fuel ->
          to_container fuel w
          = Some (firstn (Nat.min a (Nat.min b (length l))) l, Val stop))
    /\ length (firstn (Nat.min a (Nat.min b (length l))) l)
       = Nat.min a (Nat.min b (length l)).
Proof.
  intros Hy.
  destruct (take_yields_firstn false s e l a Hy) as (stop1 & Hinner).
  destruct (take_yields_firstn (urng_t := view_take false false urng_t)
              false (View_take false false s a) stop1 (firstn a l) b Hinner)
    as (stop & Houter).
  exists (View_take false false s a),
    (View_take false false (View_take false false s a) b), stop.
  assert (Heq : firstn (Nat.min a (Nat.min b (length l))) l
                = firstn b (firstn a l)).
  { rewrite firstn_firstn, Nat.min_assoc, firstn_min_length.
    f_equal. apply Nat.min_comm. }
  split; [apply take_ctor_silent|].
  split; [apply (take_ctor_silent (urng_t := view_take false false urng_t))|].
  split.
  - intros fuel Hfuel. rewrite Heq.
    apply to_container_yields; [exact Houter|].
    rewrite firstn_firstn, length_firstn. lia.
  - rewrite length_firstn. lia.
Qed.

Lemma take_take_min_witness :
  exists (v : view_take false false (list ascii))
         (w : view_take false false (view_take false false (list ascii)))
         (stop : take_iterator (take_iterator (list ascii))),
    (foobar |> take 3) = Val v
    /\ (v |> take 2) = Val w
    /\ (forall fuel : nat, length foobar < fuel ->
          to_container fuel w
          = Some (firstn (Nat.min 3 (Nat.min 2 (length foobar))) foobar,
                  Val stop))
    /\ length (firstn (Nat.min 3 (Nat.min 2 (length foobar))) foobar)
       = Nat.min 3 (Nat.min 2 (length foobar)).
Proof.
  apply (take_take_min foobar foobar [] 3 2).
  repeat (eapply yields_step; [reflexivity | reflexivity | reflexivity |]).
  apply yields_end. reflexivity.
Defined.

(** The unit test of the family: ["foobar"] through two takes of 3 is
    ["foo"], and a take of 4 over ["foo"] is ["foo"]. *)
Lemma take_examples :
  (v <- foobar |> take 3 ;; w <- v |> take 3 ;;
   Val (finished (to_container 7 w))) = Val (Some foo)
  /\ (v <- SinglePass foo |> take 4 ;; Val (finished (to_container 4 v)))
     = Val (Some foo)
  /\ (v <- SinglePass foo |> take_exactly 4 ;;
      Val (size v, finished (to_container 4 v))) = Val (Some 4, Some foo).
Proof. repeat split. Qed.

(* ================================================================== *)
(** ** Adaptor composition *)
(* ================================================================== *)

(** C8: for the adaptors of the library, the pipe form builds the same view
    as the direct form (an equation between views, hence the same type and
    the same elements when iterated): [trim_fn] with either kind of
    threshold, [take_line], [take_line_or_throw] and the bounded takes.
    Chains compose from left to right: [seq | A | B] is [B(A(seq))].
    Building a chain runs no iterator operation: the view built holds the
    range it was given, and a failure of the elements shows only when the
    view is iterated, as for ["foo"] piped into [take_line_or_throw]. *)
Theorem pipe_is_direct_call :
  (forall (irng_t I Q : Type) {HR : Range irng_t I Q}
          {HQ : QualityAlphabet Q} (irange : irng_t)
          (threshold : Z) (letter : Q) (fuel : nat),
      (irange |> trim_fn_bind Trim_fn threshold)
      = trim_fn_phred Trim_fn irange threshold
      /\ (irange |> trim_fn_bind Trim_fn letter)
         = trim_fn_value Trim_fn irange letter
      /\ to_container fuel (irange |> trim_fn_bind Trim_fn threshold)
         = to_container fuel (trim_fn_phred Trim_fn irange threshold)
      /\ (irange |> trim_fn_bind Trim_fn threshold
                 |> trim_fn_bind Trim_fn letter)
         = trim_fn_value Trim_fn (trim_fn_phred Trim_fn irange threshold)
             letter
      /\ tw_urange (irange |> trim_fn_bind Trim_fn threshold) = irange)
  /\ (forall (urng_t I : Type) {HR : Range urng_t I ascii}
             (seq : urng_t) (require_eol : bool)
             (fn : take_line_fn require_eol) (fuel : nat),
         (seq |> fn) = pipable_call fn seq
         /\ to_container fuel (seq |> fn)
            = to_container fuel (pipable_call fn seq)
         /\ (seq |> take_line |> fn)
            = pipable_call fn (pipable_call take_line seq)
         /\ urange (seq |> fn) = seq)
  /\ (forall (urng_t I A : Type) {HR : Range urng_t I A}
             (seq : urng_t) (exactly or_throw : bool)
             (fn : take_fn exactly or_throw),
         (seq |> fn) = take_call fn seq)
  /\ (exists v : view_take_line true (list ascii),
         (foo |> take_line_or_throw) = v
         /\ to_container 4 v = Some (foo, throw unexpected_end_of_input)).
Proof.
  repeat split. eexists. split; reflexivity.
Qed.

(* ================================================================== *)
(** ** [std::span] *)
(* ================================================================== *)

(** A fixed-extent span always converts to a dynamic-extent span over the
    same pointer and length. *)
Lemma span_dynamic_of_fixed (span_extent : Z) (s : Span.span span_extent) :
  (0 <= span_extent < 2 ^ 63)%Z ->
  Span.dynamic_of_fixed s
  = {| Span.dyn_data_ := Span.data s; Span.size_ := span_extent |}.
Proof.
  intros Hext. unfold Span.dynamic_of_fixed, Span.size, Span.index_type.
  rewrite Z.mod_small by lia. reflexivity.
Qed.

(** C9, at the input on which the code departs from it: the fixed-extent
    span of three elements at address 4096 converts to the dynamic-extent
    span over the same pointer and length, as every fixed-extent span does;
    converting that span back, whose length does equal the extent, yields
    no span.  The check of the converting constructor is a
    [static_assert] on its parameter, so the constructor is ill-formed for
    every extent and every span, not a check that passes when the lengths
    agree. *)
Theorem span_fixed_of_dynamic_ill_formed :
  Span.dynamic_of_fixed (Span.Fixed 3%Z 4096%Z)
  = Span.Dynamic 4096%Z 3%Z
  /\ (Span.index_type 3 =? Span.dyn_size (Span.Dynamic 4096%Z 3%Z))%Z = true
  /\ Span.fixed_of_dynamic 3%Z (Span.Dynamic 4096%Z 3%Z) = Fail IllFormed
  /\ (forall (span_extent : Z) (s : Span.span span_extent),
         Span.dynamic_of_fixed s
         = {| Span.dyn_data_ := Span.data s;
              Span.size_ := Span.index_type span_extent |})
  /\ (forall (span_extent : Z) (other : Span.span_dynamic),
         Span.fixed_of_dynamic span_extent other = Fail IllFormed).
Proof. repeat split. Qed.

(* ================================================================== *)
(** ** The members of the dynamic-extent [std::span] *)
(* ================================================================== *)

Module SpanFacts.

Import Span SpanOps.
Local Open Scope Z_scope.

Lemma npos_value : npos = 2 ^ 64 - 1.
Proof. reflexivity. Qed.

Lemma index_type_small (z : Z) : 0 <= z < 2 ^ 64 -> index_type z = z.
Proof. intros Hz. unfold index_type. apply Z.mod_small. exact Hz. Qed.

(** Unfolds the members and decides every comparison. *)
Ltac span_cases :=
  unfold subspan, subspan_static, first, last, at_index, assert,
    of_ptr_count, ptr_add, span_begin, span_end, dyn_size, dyn_data,
    well_formed in *;
  simpl in *;
  repeat match goal with
  | |- context [index_type ?z] =>
      rewrite (index_type_small z) by lia
  | H : context [index_type ?z] |- _ =>
      rewrite (index_type_small z) in H by lia
  | |- context [?a >=? ?b] => rewrite (Z.geb_leb a b)
  | H : context [?a >=? ?b] |- _ => rewrite (Z.geb_leb a b) in H
  | |- context [?a <=? ?b] => destruct (Z.leb_spec a b); simpl
  | H : context [?a <=? ?b] |- _ => destruct (Z.leb_spec a b); simpl in H
  | |- context [?a <? ?b] => destruct (Z.ltb_spec a b); simpl
  | H : context [?a <? ?b] |- _ => destruct (Z.ltb_spec a b); simpl in H
  | |- context [?a =? ?b] => destruct (Z.eqb_spec a b); simpl
  | H : context [?a =? ?b] |- _ => destruct (Z.eqb_spec a b); simpl in H
  end.

(** The run-time [subspan] on a span of valid size, evaluated. *)
Lemma subspan_eval (sizeof_element : Z) (s : span_dynamic)
  (offset count : Z) :
  well_formed s ->
  0 <= offset < 2 ^ 64 ->
  0 <= count < 2 ^ 64 ->
  subspan sizeof_element s offset count
  = if offset + count <=? size_ s
    then Val {| dyn_data_ := dyn_data_ s + offset * sizeof_element;
                size_ := count |}
    else Fail AssertionViolated.
Proof.
  intros Hs Ho Hc. pose proof npos_value as Hn.
  span_cases; try reflexivity; try lia.
Qed.

(** X1: on a span of valid size, [subspan(offset, count)] succeeds exactly
    when [offset + count <= size()], no wrap-around of the sum slips through
    the assertions, and it then returns the window at [data() + offset] of
    [count] elements; otherwise an assertion is violated. *)
Theorem subspan_spec (sizeof_element : Z) (s : span_dynamic)
  (offset count : Z) :
  well_formed s ->
  0 <= offset < 2 ^ 64 ->
  0 <= count < 2 ^ 64 ->
  (forall r : span_dynamic,
      subspan sizeof_element s offset count = Val r
      <-> offset + count <= size_ s
          /\ r = {| dyn_data_ := dyn_data_ s + offset * sizeof_element;
                    size_ := count |})
  /\ (size_ s < offset + count ->
      subspan sizeof_element s offset count = Fail AssertionViolated).
Proof.
  intros Hs Ho Hc. rewrite subspan_eval by assumption.
  destruct (Z.leb_spec (offset + count) (size_ s)) as [Hle | Hgt].
  - split; [|lia]. intros r. split.
    + intros Hr. injection Hr as <-. split; [exact Hle | reflexivity].
    + intros [_ ->]. reflexivity.
  - split; [|reflexivity]. intros r. split; [discriminate | lia].
Qed.

Lemma subspan_spec_witness :
  (forall r : span_dynamic,
      subspan 4 (Dynamic 4096 10) 3 5 = Val r
      <-> 3 + 5 <= size_ (Dynamic 4096 10)
          /\ r = {| dyn_data_ := dyn_data_ (Dynamic 4096 10) + 3 * 4;
                    size_ := 5 |})
  /\ (size_ (Dynamic 4096 10) < 3 + 5 ->
      subspan 4 (Dynamic 4096 10) 3 5 = Fail AssertionViolated).
Proof.
  apply (subspan_spec 4 (Dynamic 4096 10) 3 5);
    unfold well_formed; simpl; lia.
Defined.

(** X2: the default count of the run-time [subspan] never works on a span
    of valid size: it is [dynamic_extent] converted to [index_type], which
    the assertion [count <= size()] rejects before the branch for it is
    reached.  The template form [subspan<offset>()] has no such assertion and
    returns the rest of the span behind a valid offset. *)
Theorem subspan_default_count (sizeof_element : Z) (s : span_dynamic)
  (offset : Z) :
  well_formed s ->
  0 <= offset <= size_ s ->
  subspan sizeof_element s offset npos = Fail AssertionViolated
  /\ subspan_static sizeof_element offset dynamic_extent s
     = Val {| dyn_data_ := dyn_data_ s + offset * sizeof_element;
              size_ := size_ s - offset |}.
Proof.
  intros Hs Ho. pose proof npos_value as Hn. split.
  - span_cases; try reflexivity; lia.
  - unfold dynamic_extent. span_cases; try reflexivity; lia.
Qed.

Lemma subspan_default_count_witness :
  subspan 4 (Dynamic 4096 10) 3 npos = Fail AssertionViolated
  /\ subspan_static 4 3 dynamic_extent (Dynamic 4096 10)
     = Val {| dyn_data_ := dyn_data_ (Dynamic 4096 10) + 3 * 4;
              size_ := size_ (Dynamic 4096 10) - 3 |}.
Proof.
  apply (subspan_default_count 4 (Dynamic 4096 10) 3);
    unfold well_formed; simpl; lia.
Defined.

(** X3: [first(count)] is [subspan(0, count)] and [last(count)] is
    [subspan(size() - count, count)], failures included: a count beyond the
    size violates an assertion in either form. *)
Theorem first_last_as_subspan (sizeof_element : Z) (s : span_dynamic)
  (count : Z) :
  well_formed s ->
  0 <= count < 2 ^ 64 ->
  first s count = subspan sizeof_element s 0 count
  /\ last sizeof_element s count
     = subspan sizeof_element s (index_type (size_ s - count)) count.
Proof.
  intros Hs Hc. pose proof npos_value as Hn. split.
  - span_cases; try reflexivity; try lia. f_equal. f_equal. lia.
  - destruct (Z.le_gt_cases count (size_ s)) as [Hle | Hgt].
    + span_cases; try reflexivity; try lia. f_equal. f_equal. lia.
    + unfold last, subspan, assert, dyn_size. rewrite Z.geb_leb.
      destruct (Z.leb_spec 0 count); [|lia].
      destruct (Z.leb_spec count (size_ s)); [lia|]. simpl.
      destruct (_ && _); reflexivity.
Qed.

Lemma first_last_as_subspan_witness :
  first (Dynamic 4096 10) 4 = subspan 4 (Dynamic 4096 10) 0 4
  /\ last 4 (Dynamic 4096 10) 4
     = subspan 4 (Dynamic 4096 10)
         (index_type (size_ (Dynamic 4096 10) - 4)) 4.
Proof.
  apply (first_last_as_subspan 4 (Dynamic 4096 10) 4);
    unfold well_formed; simpl; lia.
Defined.

(** X4: a window obtained by [first], [last] or [subspan] lies inside the
    span it was taken from: it begins no earlier, ends no later and is no
    longer. *)
Theorem narrowing_stays_inside (sizeof_element : Z) (s r : span_dynamic)
  (offset count : Z) :
  0 < sizeof_element ->
  well_formed s ->
  0 <= offset < 2 ^ 64 ->
  0 <= count < 2 ^ 64 ->
  first s count = Val r \/ last sizeof_element s count = Val r
  \/ subspan sizeof_element s offset count = Val r ->
  span_begin s <= span_begin r
  /\ span_end sizeof_element r <= span_end sizeof_element s
  /\ 0 <= size_ r <= size_ s.
Proof.
  intros Hsz Hs Ho Hc Hr. pose proof npos_value as Hn.
  assert (Hin : forall p o n : Z,
             0 <= n -> 0 <= o -> o + n <= size_ s ->
             p = dyn_data_ s + o * sizeof_element ->
             span_begin s <= span_begin (Dynamic p n)
             /\ span_end sizeof_element (Dynamic p n)
                <= span_end sizeof_element s
             /\ 0 <= size_ (Dynamic p n) <= size_ s).
  { intros p o n Hn0 Ho0 Hle ->.
    unfold span_begin, span_end, ptr_add, dyn_data, dyn_size. simpl. nia. }
  destruct Hr as [Hr | [Hr | Hr]].
  - span_cases; try discriminate. injection Hr as <-.
    apply (Hin _ 0 count); simpl; lia.
  - span_cases; try discriminate. injection Hr as <-.
    apply (Hin _ (size_ s - count) count); simpl; lia.
  - rewrite subspan_eval in Hr by assumption.
    destruct (Z.leb_spec (offset + count) (size_ s)); [|discriminate].
    injection Hr as <-. apply (Hin _ offset count); simpl; lia.
Qed.

Lemma narrowing_stays_inside_witness :
  span_begin (Dynamic 4096 10) <= span_begin (Dynamic 4108 5)
  /\ span_end 4 (Dynamic 4108 5) <= span_end 4 (Dynamic 4096 10)
  /\ 0 <= size_ (Dynamic 4108 5) <= size_ (Dynamic 4096 10).
Proof.
  apply (narrowing_stays_inside 4 (Dynamic 4096 10) (Dynamic 4108 5) 3 5);
    unfold well_formed; simpl; try lia.
  right. right. reflexivity.
Defined.

(** X5: windows compose: a window of a window of [s] is the window of [s]
    at the sum of the offsets. *)
Theorem subspan_subspan (sizeof_element : Z) (s r1 r2 : span_dynamic)
  (offset1 count1 offset2 count2 : Z) :
  well_formed s ->
  0 <= offset1 < 2 ^ 64 -> 0 <= count1 < 2 ^ 64 ->
  0 <= offset2 < 2 ^ 64 -> 0 <= count2 < 2 ^ 64 ->
  subspan sizeof_element s offset1 count1 = Val r1 ->
  subspan sizeof_element r1 offset2 count2 = Val r2 ->
  subspan sizeof_element s (offset1 + offset2) count2 = Val r2.
Proof.
  intros Hs Ho1 Hc1 Ho2 Hc2 H1 H2.
  rewrite subspan_eval in H1 by assumption.
  destruct (Z.leb_spec (offset1 + count1) (size_ s)); [|discriminate].
  injection H1 as <-.
  rewrite subspan_eval in H2
    by (unfold well_formed in *; simpl; lia).
  simpl in H2.
  destruct (Z.leb_spec (offset2 + count2) count1); [|discriminate].
  injection H2 as <-.
  rewrite subspan_eval by (unfold well_formed in *; simpl; lia).
  destruct (Z.leb_spec (offset1 + offset2 + count2) (size_ s)); [|lia].
  f_equal. f_equal. lia.
Qed.

Lemma subspan_subspan_witness :
  subspan 4 (Dynamic 4096 10) (3 + 1) 2 = Val (Dynamic 4112 2).
Proof.
  apply (subspan_subspan 4 (Dynamic 4096 10) (Dynamic 4108 5)
           (Dynamic 4112 2) 3 5 1 2);
    unfold well_formed; simpl; try lia; reflexivity.
Defined.

(** X6: indexing a window reaches the element of the underlying span at
    [offset + idx], and the window enforces its own bound: an index from
    [count] on violates the assertion even where the underlying span still
    has elements. *)
Theorem at_index_subspan (sizeof_element : Z) (s r : span_dynamic)
  (offset count idx : Z) :
  well_formed s ->
  0 <= offset < 2 ^ 64 -> 0 <= count < 2 ^ 64 -> 0 <= idx ->
  subspan sizeof_element s offset count = Val r ->
  (idx < count ->
   at_index sizeof_element r idx
   = at_index sizeof_element s (offset + idx)
   /\ at_index sizeof_element r idx
      = Val (dyn_data_ s + (offset + idx) * sizeof_element))
  /\ (count <= idx ->
      at_index sizeof_element r idx = Fail AssertionViolated).
Proof.
  intros Hs Ho Hc Hi Hr.
  rewrite subspan_eval in Hr by assumption.
  destruct (Z.leb_spec (offset + count) (size_ s)); [|discriminate].
  injection Hr as <-. split.
  - intros Hlt. span_cases; try lia.
    split; f_equal; lia.
  - intros Hge. span_cases; try lia. reflexivity.
Qed.

Lemma at_index_subspan_witness :
  (1 < 5 ->
   at_index 4 (Dynamic 4108 5) 1 = at_index 4 (Dynamic 4096 10) (3 + 1)
   /\ at_index 4 (Dynamic 4108 5) 1
      = Val (dyn_data_ (Dynamic 4096 10) + (3 + 1) * 4))
  /\ (5 <= 1 -> at_index 4 (Dynamic 4108 5) 1 = Fail AssertionViolated).
Proof.
  apply (at_index_subspan 4 (Dynamic 4096 10) (Dynamic 4108 5) 3 5 1);
    unfold well_formed; simpl; try lia; reflexivity.
Defined.

(** X7: a span is rebuilt from its own [begin()] and [end()]: the
    pointer-pair constructor recovers pointer and size. *)
Theorem of_ptr_ptr_begin_end (sizeof_element : Z) (s : span_dynamic) :
  0 < sizeof_element ->
  0 <= size_ s < 2 ^ 64 ->
  of_ptr_ptr sizeof_element (span_begin s) (span_end sizeof_element s) = s.
Proof.
  intros Hsz Hs. destruct s as [p n]. simpl in Hs.
  unfold of_ptr_ptr, span_begin, span_end, ptr_add, dyn_data, dyn_size.
  simpl. f_equal.
  replace (p + n * sizeof_element - p) with (n * sizeof_element) by lia.
  rewrite Z.div_mul by lia. apply index_type_small. exact Hs.
Qed.

Lemma of_ptr_ptr_begin_end_witness :
  of_ptr_ptr 4 (span_begin (Dynamic 4096 10)) (span_end 4 (Dynamic 4096 10))
  = Dynamic 4096 10.
Proof.
  apply (of_ptr_ptr_begin_end 4 (Dynamic 4096 10)); simpl; lia.
Defined.

(** X8: [as_bytes] covers exactly the memory of the span as long as the
    byte count fits [size_t], and it commutes with taking a window: the
    bytes of a window are the window of the bytes at the scaled offset and
    count. *)
Theorem as_bytes_subspan (sizeof_element : Z) (s r : span_dynamic)
  (offset count : Z) :
  0 < sizeof_element ->
  well_formed s ->
  size_ s * sizeof_element < 2 ^ 63 ->
  0 <= offset < 2 ^ 64 -> 0 <= count < 2 ^ 64 ->
  subspan sizeof_element s offset count = Val r ->
  span_begin (as_bytes sizeof_element s) = span_begin s
  /\ span_end 1 (as_bytes sizeof_element s) = span_end sizeof_element s
  /\ subspan 1 (as_bytes sizeof_element s) (offset * sizeof_element)
       (count * sizeof_element)
     = Val (as_bytes sizeof_element r).
Proof.
  intros Hsz Hs Hbytes Ho Hc Hr.
  rewrite subspan_eval in Hr by assumption.
  destruct (Z.leb_spec (offset + count) (size_ s)); [|discriminate].
  injection Hr as <-.
  unfold well_formed in Hs.
  assert (Hsb : size_bytes sizeof_element s = size_ s * sizeof_element).
  { unfold size_bytes. apply index_type_small. nia. }
  repeat split.
  - unfold span_end, as_bytes, of_ptr_count, ptr_add, dyn_data, dyn_size.
    simpl. rewrite Hsb. lia.
  - rewrite subspan_eval.
    + unfold as_bytes, of_ptr_count, dyn_data. simpl. rewrite Hsb.
      destruct (Z.leb_spec (offset * sizeof_element + count * sizeof_element)
                  (size_ s * sizeof_element)); [|nia].
      unfold size_bytes. simpl.
      rewrite (index_type_small (count * sizeof_element)) by nia.
      f_equal. f_equal. lia.
    + unfold well_formed, as_bytes, of_ptr_count. simpl. rewrite Hsb. nia.
    + nia.
    + nia.
Qed.

Lemma as_bytes_subspan_witness :
  span_begin (as_bytes 4 (Dynamic 4096 10)) = span_begin (Dynamic 4096 10)
  /\ span_end 1 (as_bytes 4 (Dynamic 4096 10))
     = span_end 4 (Dynamic 4096 10)
  /\ subspan 1 (as_bytes 4 (Dynamic 4096 10)) (3 * 4) (5 * 4)
     = Val (as_bytes 4 (Dynamic 4108 5)).
Proof.
  apply (as_bytes_subspan 4 (Dynamic 4096 10) (Dynamic 4108 5) 3 5);
    unfold well_formed; simpl; try lia; reflexivity.
Defined.

End SpanFacts.

(* ================================================================== *)
(** ** More on [view::trim] *)
(* ================================================================== *)

(** Walks a concrete container to its end. *)
Ltac walk_container :=
  repeat (eapply yields_step; [reflexivity | reflexivity | reflexivity |]);
  apply yields_end; reflexivity.

Section LeadingRunAlgebra.
Context {A : Type}.

Lemma leading_run_ext (p q : A -> bool) (l : list A) :
  (forall x, p x = q x) -> leading_run p l = leading_run q l.
Proof.
  intros Hpq. induction l as [|x l IH]; simpl; [reflexivity|].
  rewrite Hpq, IH. reflexivity.
Qed.

Lemma leading_run_twice (p q : A -> bool) (l : list A) :
  leading_run q (leading_run p l) = leading_run (fun x => p x && q x) l.
Proof.
  induction l as [|x l IH]; simpl; [reflexivity|].
  destruct (p x); simpl; [|reflexivity].
  destruct (q x); simpl; [rewrite IH|]; reflexivity.
Qed.

Lemma leading_run_weaker (p q : A -> bool) (l : list A) :
  (forall x, q x = true -> p x = true) ->
  exists dropped : list A,
    leading_run p l = leading_run q l ++ dropped.
Proof.
  intros Hqp. induction l as [|x l [dropped IH]]; simpl.
  - exists []. reflexivity.
  - destruct (q x) eqn:Hq.
    + rewrite (Hqp x Hq). exists dropped. simpl. rewrite IH. reflexivity.
    + eexists. reflexivity.
Qed.

Lemma leading_run_all (p : A -> bool) (l : list A) :
  leading_run p l = l <-> Forall (fun x => p x = true) l.
Proof.
  induction l as [|x l IH]; simpl.
  - split; [constructor | reflexivity].
  - destruct (p x) eqn:Hp; split; intros H.
    + injection H as H. constructor; [exact Hp | apply IH, H].
    + inversion H; subst. f_equal. apply IH. assumption.
    + discriminate.
    + inversion H; subst. congruence.
Qed.

Lemma leading_run_nil (p : A -> bool) (l : list A) :
  leading_run p l = []
  <-> l = [] \/ exists x rest, l = x :: rest /\ p x = false.
Proof.
  destruct l as [|x l]; simpl.
  - split; [left; reflexivity | reflexivity].
  - destruct (p x) eqn:Hp; split; intros H.
    + discriminate.
    + destruct H as [H | (y & rest & H & Hy)]; [discriminate|].
      injection H as -> ->. congruence.
    + right. exists x, l. split; [reflexivity | exact Hp].
    + reflexivity.
Qed.
End LeadingRunAlgebra.

Section TrimMore.
Context {irng_t I Q : Type} `{Range irng_t I Q} `{QualityAlphabet Q}.

(** What a trimmed view converts to. *)
Lemma trim_fn_finished (irange : irng_t) (seq : list Q) (e : I)
  (threshold : Z) (fuel : nat) :
  yields irng_t (range_begin irange) seq (Val e) ->
  length seq < fuel ->
  finished (to_container fuel (trim_fn_phred Trim_fn irange threshold))
  = Some (leading_run (passes threshold) seq).
Proof.
  intros Hy Hfuel.
  destruct (take_while_yields (passes threshold) _ _ _ Hy)
    as (stop & rest & _ & _ & Hrun).
  pose proof (leading_run_length (passes threshold) seq) as Hlen.
  rewrite (to_container_yields
             (v := trim_fn_phred Trim_fn irange threshold) Hrun) by lia.
  reflexivity.
Qed.

End TrimMore.

(** X10: trimming a trimmed view is trimming once at the larger threshold;
    so trimming twice at one threshold changes nothing and the order of two
    thresholds does not matter. *)
Theorem trim_twice_is_trim_max {irng_t I Q : Type} `{Range irng_t I Q}
  `{QualityAlphabet Q} (irange : irng_t) (seq : list Q) (e : I)
  (t1 t2 : Z) (fuel : nat) :
  yields irng_t (range_begin irange) seq (Val e) ->
  length seq < fuel ->
  finished (to_container fuel
              (irange |> trim_fn_bind Trim_fn t1 |> trim_fn_bind Trim_fn t2))
  = finished (to_container fuel
                (irange |> trim_fn_bind Trim_fn (Z.max t1 t2)))
  /\ finished (to_container fuel
                 (irange |> trim_fn_bind Trim_fn t1
                         |> trim_fn_bind Trim_fn t2))
     = finished (to_container fuel
                   (irange |> trim_fn_bind Trim_fn t2
                           |> trim_fn_bind Trim_fn t1))
  /\ finished (to_container fuel
                 (irange |> trim_fn_bind Trim_fn t1
                         |> trim_fn_bind Trim_fn t1))
     = finished (to_container fuel (irange |> trim_fn_bind Trim_fn t1)).
Proof.
  intros Hy Hfuel.
  assert (Htwice : forall a b : Z,
            finished (to_container fuel
                        (irange |> trim_fn_bind Trim_fn a
                                |> trim_fn_bind Trim_fn b))
            = Some (leading_run (passes (Z.max a b)) seq)).
  { intros a b.
    destruct (take_while_yields (passes a) _ _ _ Hy)
      as (stop & rest & _ & _ & Hrun).
    pose proof (leading_run_length (passes a) seq) as Hlen.
    pose proof (trim_fn_finished (irng_t := take_while_view irng_t Q)
                  (trim_fn_phred Trim_fn irange a) _ _ b fuel Hrun
                  ltac:(lia)) as Hb.
    transitivity (Some (leading_run (passes b) (leading_run (passes a) seq)));
      [exact Hb|].
    rewrite leading_run_twice. f_equal. apply leading_run_ext.
    intros q. unfold passes.
    destruct (Z.geb_spec (to_phred q) a), (Z.geb_spec (to_phred q) b),
      (Z.geb_spec (to_phred q) (Z.max a b)); simpl; try reflexivity; lia. }
  assert (Honce : forall a : Z,
            finished (to_container fuel (irange |> trim_fn_bind Trim_fn a))
            = Some (leading_run (passes a) seq)).
  { intros a. exact (trim_fn_finished irange seq e a fuel Hy Hfuel). }
  rewrite !Htwice, !Honce, Z.max_id, (Z.max_comm t2 t1).
  repeat split.
Qed.

Lemma trim_twice_is_trim_max_witness :
  finished (to_container 5
              (qualities [30; 25; 10; 28]%Z |> trim_fn_bind Trim_fn 20%Z
                 |> trim_fn_bind Trim_fn 28%Z))
  = finished (to_container 5
                (qualities [30; 25; 10; 28]%Z
                   |> trim_fn_bind Trim_fn (Z.max 20 28)))
  /\ finished (to_container 5
                 (qualities [30; 25; 10; 28]%Z |> trim_fn_bind Trim_fn 20%Z
                    |> trim_fn_bind Trim_fn 28%Z))
     = finished (to_container 5
                   (qualities [30; 25; 10; 28]%Z |> trim_fn_bind Trim_fn 28%Z
                      |> trim_fn_bind Trim_fn 20%Z))
  /\ finished (to_container 5
                 (qualities [30; 25; 10; 28]%Z |> trim_fn_bind Trim_fn 20%Z
                    |> trim_fn_bind Trim_fn 20%Z))
     = finished (to_container 5
                   (qualities [30; 25; 10; 28]%Z
                      |> trim_fn_bind Trim_fn 20%Z)).
Proof.
  apply (trim_twice_is_trim_max (qualities [30; 25; 10; 28]%Z)
           (qualities [30; 25; 10; 28]%Z) [] 20%Z 28%Z 5).
  - walk_container.
  - simpl. lia.
Defined.

(** X11: raising the threshold can only shorten the result: the view
    trimmed at the higher threshold yields a prefix of what the view trimmed
    at the lower threshold yields. *)
Theorem trim_monotone {irng_t I Q : Type} `{Range irng_t I Q}
  `{QualityAlphabet Q} (irange : irng_t) (seq : list Q) (e : I)
  (low high : Z) (fuel : nat) :
  yields irng_t (range_begin irange) seq (Val e) ->
  length seq < fuel ->
  (low <= high)%Z ->
  exists kept dropped : list Q,
    finished (to_container fuel (trim_fn_phred Trim_fn irange high))
    = Some kept
    /\ finished (to_container fuel (trim_fn_phred Trim_fn irange low))
       = Some (kept ++ dropped).
Proof.
  intros Hy Hfuel Hle.
  destruct (leading_run_weaker (passes low) (passes high) seq)
    as [dropped Hd].
  { intros q. unfold passes. intros Hq.
    destruct (Z.geb_spec (to_phred q) high); [|discriminate].
    destruct (Z.geb_spec (to_phred q) low); [reflexivity | lia]. }
  exists (leading_run (passes high) seq), dropped.
  rewrite <- Hd. split; eapply trim_fn_finished; eassumption.
Qed.

Lemma trim_monotone_witness :
  exists kept dropped : list phred,
    finished (to_container 5
                (trim_fn_phred Trim_fn (qualities [30; 25; 10; 28]%Z) 28%Z))
    = Some kept
    /\ finished (to_container 5
                   (trim_fn_phred Trim_fn (qualities [30; 25; 10; 28]%Z)
                      20%Z))
       = Some (kept ++ dropped).
Proof.
  apply (trim_monotone (qualities [30; 25; 10; 28]%Z)
           (qualities [30; 25; 10; 28]%Z) [] 20%Z 28%Z 5).
  - walk_container.
  - simpl. lia.
  - lia.
Defined.

(** X12: trimming returns the whole sequence exactly when every letter
    passes the threshold, and nothing exactly when the sequence is empty or
    its first letter is below the threshold. *)
Theorem trim_whole_or_nothing {irng_t I Q : Type} `{Range irng_t I Q}
  `{QualityAlphabet Q} (irange : irng_t) (seq : list Q) (e : I)
  (threshold : Z) (fuel : nat) :
  yields irng_t (range_begin irange) seq (Val e) ->
  length seq < fuel ->
  (finished (to_container fuel (trim_fn_phred Trim_fn irange threshold))
   = Some seq
   <-> Forall (fun q => (to_phred q >= threshold)%Z) seq)
  /\ (finished (to_container fuel (trim_fn_phred Trim_fn irange threshold))
      = Some []
      <-> seq = [] \/
          exists q rest, seq = q :: rest /\ (to_phred q < threshold)%Z).
Proof.
  intros Hy Hfuel.
  rewrite (trim_fn_finished irange seq e threshold fuel Hy Hfuel).
  split.
  - split.
    + intros Hall. injection Hall as Hall.
      apply leading_run_all in Hall.
      eapply Forall_impl; [|exact Hall].
      intros q Hq. unfold passes in Hq. simpl in Hq. lia.
    + intros Hall. f_equal. apply leading_run_all.
      eapply Forall_impl; [|exact Hall].
      intros q Hq. unfold passes. simpl in Hq.
      destruct (Z.geb_spec (to_phred q) threshold); [reflexivity | lia].
  - split.
    + intros Hnil. injection Hnil as Hnil.
      apply leading_run_nil in Hnil as [-> | (q & rest & -> & Hq)];
        [left; reflexivity|].
      right. exists q, rest. split; [reflexivity|].
      unfold passes in Hq. lia.
    + intros Hnil. f_equal. apply leading_run_nil.
      destruct Hnil as [-> | (q & rest & -> & Hq)]; [left; reflexivity|].
      right. exists q, rest. split; [reflexivity|].
      unfold passes.
      destruct (Z.geb_spec (to_phred q) threshold); [lia | reflexivity].
Qed.

Lemma trim_whole_or_nothing_witness :
  (finished (to_container 5
               (trim_fn_phred Trim_fn (qualities [30; 25; 10; 28]%Z) 20%Z))
   = Some (qualities [30; 25; 10; 28]%Z)
   <-> Forall (fun q => (to_phred q >= 20)%Z) (qualities [30; 25; 10; 28]%Z))
  /\ (finished (to_container 5
                  (trim_fn_phred Trim_fn (qualities [30; 25; 10; 28]%Z)
                     20%Z))
      = Some []
      <-> qualities [30; 25; 10; 28]%Z = [] \/
          exists q rest, qualities [30; 25; 10; 28]%Z = q :: rest
                         /\ (to_phred q < 20)%Z).
Proof.
  apply (trim_whole_or_nothing (qualities [30; 25; 10; 28]%Z)
           (qualities [30; 25; 10; 28]%Z) [] 20%Z 5).
  - walk_container.
  - simpl. lia.
Defined.

(* ================================================================== *)
(** ** More on [view::take_line] *)
(* ================================================================== *)

Lemma non_eol_chars (l : list ascii) :
  Forall (fun c => non_eol c = true) l ->
  Forall (fun c => is_eol c = false) l.
Proof.
  apply Forall_impl. intros c. unfold non_eol.
  destruct (is_eol c); [discriminate | reflexivity].
Qed.

Lemma is_eol_false (c : ascii) :
  is_eol c = false -> Ascii.eqb c CR = false /\ Ascii.eqb c LF = false.
Proof. unfold is_eol. apply orb_false_iff. Qed.

Section TakeLineForward.
Context {urng_t base_base_t : Type} `{Range urng_t base_base_t ascii}.

(** Over a forward range the scan stops in front of the first end-of-line
    character, for either variant. *)
Lemma take_line_forward_at_eol (it e : base_base_t) (l rest : list ascii)
  (c : ascii) :
  forward_range urng_t = true ->
  yields urng_t it (l ++ c :: rest) (Val e) ->
  Forall (fun c => is_eol c = false) l ->
  is_eol c = true ->
  exists stop : base_base_t,
    yields urng_t stop (c :: rest) (Val e)
    /\ forall require_eol : bool,
         yields (view_take_line require_eol urng_t) (of_base it) l
           (Val (of_base stop)).
Proof.
  intros Hfwd Hy Hl Hc. revert it Hy.
  induction Hl as [|x l Hx Hl IH]; intros it Hy; simpl in Hy.
  - exists it. split; [exact Hy|]. intros require_eol.
    inversion Hy as [ | | | | ? ? ? ? ? Hcmp Hd Hi Hrest]; subst.
    apply yields_end. simpl. unfold tl_at_sentinel, tl_deref. simpl.
    rewrite Hfwd, Hcmp. simpl. rewrite Hd. simpl.
    unfold is_eol in Hc. destruct (Ascii.eqb c CR); [reflexivity|].
    simpl in Hc. rewrite Hc. reflexivity.
  - inversion Hy as [ | | | | ? ? it' ? ? Hcmp Hd Hi Hrest]; subst.
    destruct (IH it' Hrest) as (stop & Hstop & Hrun).
    exists stop. split; [exact Hstop|]. intros require_eol.
    destruct (is_eol_false x Hx) as [Hcr Hlf].
    eapply yields_step; [ | | | apply Hrun].
    + simpl. unfold tl_at_sentinel, tl_deref. simpl.
      rewrite Hfwd, Hcmp. simpl. rewrite Hd. simpl. rewrite Hcr.
      simpl. rewrite Hlf. reflexivity.
    + simpl. unfold tl_deref. simpl. exact Hd.
    + simpl. unfold tl_incr. simpl. rewrite Hi, Hfwd. reflexivity.
Qed.

(** What a forward range is split into at its first end-of-line character:
    the line, and a rest that is empty or starts with that character. *)
Lemma line_and_rest (s : list ascii) :
  exists rest : list ascii,
    s = leading_run non_eol s ++ rest
    /\ Forall (fun c => is_eol c = false) (leading_run non_eol s)
    /\ (existsb is_eol s = false -> rest = [])
    /\ (existsb is_eol s = true ->
        exists c rest', rest = c :: rest' /\ is_eol c = true).
Proof.
  induction s as [|x s (rest & Hs & Hline & Hnone & Hsome)]; simpl.
  - exists []. repeat split; try constructor. discriminate.
  - unfold non_eol at 1 2 3. destruct (is_eol x) eqn:Hx; simpl.
    + exists (x :: s). repeat split; try constructor; try discriminate.
      intros _. exists x, s. split; [reflexivity | exact Hx].
    + exists rest. repeat split.
      * f_equal. exact Hs.
      * constructor; assumption.
      * exact Hnone.
      * exact Hsome.
Qed.
End TakeLineForward.

(** Over a forward range the view yields the characters in front of the
    first end-of-line character, for either variant when there is one. *)
Lemma take_line_forward_run {urng_t base_base_t : Type}
  `{Range urng_t base_base_t ascii}
  (it e : base_base_t) (s : list ascii) :
  forward_range urng_t = true ->
  yields urng_t it s (Val e) ->
  exists (stop : base_base_t) (rest : list ascii),
    s = leading_run non_eol s ++ rest
    /\ (rest = [] \/ exists c rest', rest = c :: rest' /\ is_eol c = true)
    /\ yields urng_t stop rest (Val e)
    /\ yields (view_take_line false urng_t) (of_base it)
         (leading_run non_eol s) (Val (of_base stop)).
Proof.
  intros Hfwd Hy.
  destruct (line_and_rest s) as (rest & Hs & Hline & Hnone & Hsome).
  destruct (existsb is_eol s) eqn:Hex.
  - destruct (Hsome eq_refl) as (c & rest' & -> & Hc).
    pose proof Hy as Hy'. rewrite Hs in Hy'.
    destruct (take_line_forward_at_eol _ _ _ _ _ Hfwd Hy' Hline Hc)
      as (stop & Hstop & Hrun).
    exists stop, (c :: rest'). repeat split.
    + exact Hs.
    + right. exists c, rest'. split; [reflexivity | exact Hc].
    + exact Hstop.
    + exact (Hrun false).
  - rewrite (Hnone eq_refl), app_nil_r in Hs.
    exists e, []. repeat split.
    + rewrite app_nil_r. exact Hs.
    + left. reflexivity.
    + clear - Hy. remember (Val e) as stp eqn:Hstp.
      induction Hy; try discriminate.
      * injection Hstp as ->. apply yields_end. assumption.
      * apply IHHy, Hstp.
    + rewrite <- Hs in Hline. rewrite <- Hs.
      exact (take_line_forward_no_eol false _ _ _ Hfwd Hy Hline).
Qed.

(** X13: over a forward range [take_line] never fails, whatever the
    characters: it yields the characters in front of the first end-of-line
    character (all of them if there is none) and leaves the underlying
    cursor on that character, or at the end. *)
Theorem take_line_forward_total {urng_t base_base_t : Type}
  `{Range urng_t base_base_t ascii}
  (r : urng_t) (s : list ascii) (e : base_base_t) (fuel : nat) :
  forward_range urng_t = true ->
  yields urng_t (range_begin r) s (Val e) ->
  length s < fuel ->
  exists (stop : base_base_t) (rest : list ascii),
    s = leading_run non_eol s ++ rest
    /\ (rest = [] \/ exists c rest', rest = c :: rest' /\ is_eol c = true)
    /\ yields urng_t stop rest (Val e)
    /\ to_container fuel (r |> take_line)
       = Some (leading_run non_eol s, Val (of_base stop)).
Proof.
  intros Hfwd Hy Hfuel.
  destruct (take_line_forward_run _ _ _ Hfwd Hy)
    as (stop & rest & Hs & Hrest & Hstop & Hrun).
  pose proof (leading_run_length non_eol s) as Hlen.
  exists stop, rest. repeat split; try assumption.
  assert (Hr : yields (view_take_line false urng_t)
                 (range_begin (r |> take_line))
                 (leading_run non_eol s) (Val (of_base stop)))
    by exact Hrun.
  apply (to_container_yields Hr). lia.
Qed.

Lemma take_line_forward_total_witness :
  exists (stop : list ascii) (rest : list ascii),
    foo_bar = leading_run non_eol foo_bar ++ rest
    /\ (rest = [] \/ exists c rest', rest = c :: rest' /\ is_eol c = true)
    /\ yields (list ascii) stop rest (Val [])
    /\ to_container 8 (foo_bar |> take_line)
       = Some (leading_run non_eol foo_bar, Val (of_base stop)).
Proof.
  apply (take_line_forward_total foo_bar foo_bar [] 8).
  - reflexivity.
  - walk_container.
  - simpl. lia.
Defined.

(** X14: over a forward range [take_line_or_throw] fails exactly when the
    input holds no end-of-line character, with [unexpected_end_of_input]
    after every character has been produced; when there is one it behaves
    as [take_line] does, down to the final iterator. *)
Theorem take_line_or_throw_forward {urng_t base_base_t : Type}
  `{Range urng_t base_base_t ascii}
  (r : urng_t) (s : list ascii) (e : base_base_t) (fuel : nat) :
  forward_range urng_t = true ->
  yields urng_t (range_begin r) s (Val e) ->
  length s < fuel ->
  to_container fuel (r |> take_line_or_throw)
  = if existsb is_eol s
    then to_container fuel (r |> take_line)
    else Some (s, throw unexpected_end_of_input).
Proof.
  intros Hfwd Hy Hfuel.
  destruct (line_and_rest s) as (rest & Hs & Hline & Hnone & Hsome).
  pose proof (leading_run_length non_eol s) as Hlen.
  destruct (existsb is_eol s) eqn:Hex.
  - destruct (Hsome eq_refl) as (c & rest' & -> & Hc).
    rewrite Hs in Hy.
    destruct (take_line_forward_at_eol _ _ _ _ _ Hfwd Hy Hline Hc)
      as (stop & Hstop & Hrun).
    assert (Ht : yields (view_take_line true urng_t)
                   (range_begin (r |> take_line_or_throw))
                   (leading_run non_eol s) (Val (of_base stop)))
      by exact (Hrun true).
    assert (Hf : yields (view_take_line false urng_t)
                   (range_begin (r |> take_line))
                   (leading_run non_eol s) (Val (of_base stop)))
      by exact (Hrun false).
    rewrite (to_container_yields Ht), (to_container_yields Hf) by lia.
    reflexivity.
  - rewrite (Hnone eq_refl), app_nil_r in Hs. rewrite <- Hs in Hline.
    assert (Ht : yields (view_take_line true urng_t)
                   (range_begin (r |> take_line_or_throw)) s
                   (throw unexpected_end_of_input))
      by exact (take_line_forward_no_eol true _ _ _ Hfwd Hy Hline).
    apply (to_container_yields Ht). lia.
Qed.

Lemma take_line_or_throw_forward_witness :
  to_container 8 (foo_bar |> take_line_or_throw)
  = if existsb is_eol foo_bar
    then to_container 8 (foo_bar |> take_line)
    else Some (foo_bar, throw unexpected_end_of_input).
Proof.
  apply (take_line_or_throw_forward foo_bar foo_bar [] 8).
  - reflexivity.
  - walk_container.
  - simpl. lia.
Defined.

(** X15: over a forward range, taking the line of a line changes nothing,
    while [take_line] piped into [take_line_or_throw] always fails after the
    line, whether or not the input has an end-of-line character: the inner
    view hides it, so the outer view meets an end it takes for the end of
    the input. *)
Theorem take_line_twice {urng_t base_base_t : Type}
  `{Range urng_t base_base_t ascii}
  (r : urng_t) (s : list ascii) (e : base_base_t) (fuel : nat) :
  forward_range urng_t = true ->
  yields urng_t (range_begin r) s (Val e) ->
  length s < fuel ->
  finished (to_container fuel (r |> take_line |> take_line))
  = finished (to_container fuel (r |> take_line))
  /\ finished (to_container fuel (r |> take_line))
     = Some (leading_run non_eol s)
  /\ to_container fuel (r |> take_line |> take_line_or_throw)
     = Some (leading_run non_eol s, throw unexpected_end_of_input).
Proof.
  intros Hfwd Hy Hfuel.
  destruct (take_line_forward_run _ _ _ Hfwd Hy)
    as (stop & rest & _ & _ & _ & Hrun).
  pose proof (leading_run_length non_eol s) as Hlen.
  assert (Hline : Forall (fun c => is_eol c = false)
                    (leading_run non_eol s)).
  { apply non_eol_chars, leading_run_pass. }
  assert (Hinner : yields (view_take_line false urng_t)
                     (range_begin (r |> take_line))
                     (leading_run non_eol s) (Val (of_base stop)))
    by exact Hrun.
  assert (Hfwd' : forward_range (view_take_line false urng_t) = true)
    by exact Hfwd.
  assert (Hsilent : yields (view_take_line false (view_take_line false urng_t))
                      (range_begin (r |> take_line |> take_line))
                      (leading_run non_eol s) (Val (of_base (of_base stop))))
    by exact (take_line_forward_no_eol
                (urng_t := view_take_line false urng_t)
                false _ _ _ Hfwd' Hinner Hline).
  assert (Hthrow : yields (view_take_line true (view_take_line false urng_t))
                     (range_begin (r |> take_line |> take_line_or_throw))
                     (leading_run non_eol s)
                     (throw unexpected_end_of_input))
    by exact (take_line_forward_no_eol
                (urng_t := view_take_line false urng_t)
                true _ _ _ Hfwd' Hinner Hline).
  rewrite (to_container_yields Hsilent), (to_container_yields Hinner),
    (to_container_yields Hthrow) by lia.
  repeat split.
Qed.

Lemma take_line_twice_witness :
  finished (to_container 8 (foo_bar |> take_line |> take_line))
  = finished (to_container 8 (foo_bar |> take_line))
  /\ finished (to_container 8 (foo_bar |> take_line))
     = Some (leading_run non_eol foo_bar)
  /\ to_container 8 (foo_bar |> take_line |> take_line_or_throw)
     = Some (leading_run non_eol foo_bar, throw unexpected_end_of_input).
Proof.
  apply (take_line_twice foo_bar foo_bar [] 8).
  - reflexivity.
  - walk_container.
  - simpl. lia.
Defined.

Section TakeLineSinglePass.
Context {urng_t base_base_t : Type} `{Range urng_t base_base_t ascii}.

(** Over a single-pass range the iterator steps through the characters of a
    non-empty line; how the conversion stops is decided by the increment
    that leaves the last character of the line. *)
Lemma take_line_single_pass_scan (require_eol : bool)
  (l : list ascii) (x : ascii) (it e : base_base_t)
  (terminated : list ascii) :
  forward_range urng_t = false ->
  yields urng_t it (x :: l ++ terminated) (Val e) ->
  Forall (fun c => is_eol c = false) (x :: l) ->
  exists it_last it_eol : base_base_t,
    incr urng_t it_last = Val it_eol
    /\ yields urng_t it_eol terminated (Val e)
    /\ forall stop : outcome (iterator_type base_base_t),
         incr (view_take_line require_eol urng_t) (of_base it_last) = stop ->
         (forall fin, stop = Val fin -> at_end fin = true) ->
         yields (view_take_line require_eol urng_t) (of_base it) (x :: l)
           stop.
Proof.
  intros Hfwd. revert x it.
  induction l as [|y l IH]; intros x it Hy Hl;
    inversion Hl as [|? ? Hx Hl']; subst;
    destruct (is_eol_false x Hx) as [Hcr Hlf];
    inversion Hy as [ | | | | ? ? it' ? ? Hcmp Hd Hi Hrest]; subst.
  - exists it, it'. split; [exact Hi|]. split; [exact Hrest|].
    intros stop Hstop Hflag.
    assert (Hc : at_sentinel (view_take_line require_eol urng_t)
                   (of_base it) = Val false).
    { simpl. unfold tl_at_sentinel, tl_deref. simpl.
      rewrite Hfwd, Hcmp. simpl. rewrite Hd. simpl. rewrite Hcr.
      simpl. rewrite Hlf. reflexivity. }
    destruct stop as [fin | f].
    + eapply yields_step; [exact Hc | exact Hd | exact Hstop|].
      apply yields_end. simpl. unfold tl_at_sentinel.
      rewrite Hfwd, (Hflag fin eq_refl). reflexivity.
    + eapply yields_incr_fail; [exact Hc | exact Hd | exact Hstop].
  - destruct (IH y it' Hrest Hl') as (it_last & it_eol & Hlast & Heol & Hrun).
    exists it_last, it_eol. split; [exact Hlast|]. split; [exact Heol|].
    inversion Hl' as [|? ? Hy' _]; subst.
    destruct (is_eol_false y Hy') as [Hycr Hylf].
    inversion Hrest as [ | | | | ? ? ? ? ? _ Hdy _ _]; subst.
    intros stop Hstop Hflag.
    eapply yields_step; [ | exact Hd | | exact (Hrun stop Hstop Hflag)].
    + simpl. unfold tl_at_sentinel, tl_deref. simpl.
      rewrite Hfwd, Hcmp. simpl. rewrite Hd. simpl. rewrite Hcr.
      simpl. rewrite Hlf. reflexivity.
    + simpl. unfold tl_incr, tl_deref. simpl.
      rewrite Hi, Hfwd. simpl. rewrite Hdy. simpl. rewrite Hycr.
      simpl. rewrite Hdy. simpl. rewrite Hylf. reflexivity.
Qed.
End TakeLineSinglePass.

(** X16: over a single-pass range a non-empty line is yielded and its
    terminator is consumed as a whole, for either variant: a line feed, a
    carriage return with the line feed that follows it, or a carriage return
    alone when another character follows.  The conversion finishes with the
    flag set and the underlying cursor on the first character behind the
    terminator, also when the terminator ends the input. *)
Theorem take_line_single_pass_terminator {urng_t base_base_t : Type}
  `{Range urng_t base_base_t ascii}
  (require_eol : bool) (r : urng_t) (x : ascii) (l terminator tail : list ascii)
  (e : base_base_t) (fuel : nat) :
  forward_range urng_t = false ->
  yields urng_t (range_begin r) (x :: l ++ terminator ++ tail) (Val e) ->
  Forall (fun c => is_eol c = false) (x :: l) ->
  terminator = [LF] \/ terminator = [CR; LF]
  \/ (terminator = [CR]
      /\ exists c tail', tail = c :: tail' /\ Ascii.eqb c LF = false) ->
  length (x :: l) < fuel ->
  exists stop : base_base_t,
    yields urng_t stop tail (Val e)
    /\ to_container fuel (View_take_line require_eol r)
       = Some (x :: l, Val {| base := stop; at_end := true |}).
Proof.
  intros Hfwd Hy Hl Hterm Hfuel.
  destruct (take_line_single_pass_scan require_eol l x (range_begin r) e
              (terminator ++ tail) Hfwd Hy Hl)
    as (it_last & it_eol & Hlast & Heol & Hrun).
  assert (Hdone : forall stop : base_base_t,
            incr (view_take_line require_eol urng_t) (of_base it_last)
            = Val {| base := stop; at_end := true |} ->
            to_container fuel (View_take_line require_eol r)
            = Some (x :: l, Val {| base := stop; at_end := true |})).
  { intros stop Hstop.
    apply to_container_yields; [|exact Hfuel].
    apply (Hrun _ Hstop). intros fin Hfin. injection Hfin as <-.
    reflexivity. }
  destruct Hterm as [-> | [-> | (-> & c & tail' & -> & Hc)]]; simpl in Heol.
  - inversion Heol as [ | | | | ? ? it2 ? ? _ Hd Hi Hrest]; subst.
    exists it2. split; [exact Hrest|]. apply Hdone.
    simpl. unfold tl_incr, tl_deref. simpl.
    rewrite Hlast, Hfwd. simpl. rewrite Hd. simpl. rewrite Hd. simpl.
    rewrite Hi. reflexivity.
  - inversion Heol as [ | | | | ? ? it2 ? ? _ Hd Hi Hrest]; subst.
    inversion Hrest as [ | | | | ? ? it3 ? ? _ Hd2 Hi2 Hrest2]; subst.
    exists it3. split; [exact Hrest2|]. apply Hdone.
    simpl. unfold tl_incr, tl_deref. simpl.
    rewrite Hlast, Hfwd. simpl. rewrite Hd. simpl. rewrite Hi. simpl.
    rewrite Hd2. simpl. rewrite Hi2. reflexivity.
  - inversion Heol as [ | | | | ? ? it2 ? ? _ Hd Hi Hrest]; subst.
    pose proof Hrest as Hrest'.
    inversion Hrest as [ | | | | ? ? it3 ? ? _ Hd2 _ _]; subst.
    exists it2. split; [exact Hrest'|]. apply Hdone.
    simpl. unfold tl_incr, tl_deref. simpl.
    rewrite Hlast, Hfwd. simpl. rewrite Hd. simpl. rewrite Hi. simpl.
    rewrite Hd2. simpl. rewrite Hc. reflexivity.
Qed.

Lemma take_line_single_pass_terminator_witness :
  exists stop : list ascii,
    yields (single_pass_input (list ascii)) stop bar (Val [])
    /\ to_container 4
         (View_take_line true
            (SinglePass ("f"%char :: ["o"; "o"]%char ++ [CR; LF] ++ bar)))
       = Some ("f"%char :: ["o"; "o"]%char,
               Val {| base := stop; at_end := true |}).
Proof.
  apply (take_line_single_pass_terminator true
           (SinglePass ("f"%char :: ["o"; "o"]%char ++ [CR; LF] ++ bar))
           "f"%char ["o"; "o"]%char [CR; LF] bar [] 4).
  - reflexivity.
  - walk_container.
  - repeat constructor.
  - right. left. reflexivity.
  - simpl. lia.
Defined.

(** X17: over a single-pass range whose end must not be dereferenced, a
    non-empty line that ends the input with a lone carriage return is
    yielded, but the increment that consumes the carriage return then looks
    for a line feed under the cursor at the end of the input: the conversion
    has no defined result, for either variant. *)
Theorem take_line_single_pass_cr_at_end {urng_t base_base_t : Type}
  `{Range urng_t base_base_t ascii}
  (require_eol : bool) (r : urng_t) (x : ascii) (l : list ascii)
  (e : base_base_t) (fuel : nat) :
  forward_range urng_t = false ->
  (forall it : base_base_t,
      at_sentinel urng_t it = Val true -> deref urng_t it = undefined) ->
  yields urng_t (range_begin r) (x :: l ++ [CR]) (Val e) ->
  Forall (fun c => is_eol c = false) (x :: l) ->
  length (x :: l) < fuel ->
  to_container fuel (View_take_line require_eol r)
  = Some (x :: l, undefined).
Proof.
  intros Hfwd Hend Hy Hl Hfuel.
  destruct (take_line_single_pass_scan require_eol l x (range_begin r) e
              [CR] Hfwd Hy Hl)
    as (it_last & it_eol & Hlast & Heol & Hrun).
  inversion Heol as [ | | | | ? ? it2 ? ? _ Hd Hi Hrest]; subst.
  inversion Hrest as [? Hcmp | | | | ]; subst.
  apply to_container_yields; [|exact Hfuel].
  apply Hrun; [|discriminate].
  simpl. unfold tl_incr, tl_deref. simpl.
  rewrite Hlast, Hfwd. simpl. rewrite Hd. simpl. rewrite Hi. simpl.
  rewrite (Hend _ Hcmp). reflexivity.
Qed.

Lemma take_line_single_pass_cr_at_end_witness :
  to_container 4
    (View_take_line false (SinglePass ("f"%char :: ["o"; "o"]%char ++ [CR])))
  = Some ("f"%char :: ["o"; "o"]%char, undefined).
Proof.
  apply (take_line_single_pass_cr_at_end false
           (SinglePass ("f"%char :: ["o"; "o"]%char ++ [CR]))
           "f"%char ["o"; "o"]%char [] 4).
  - reflexivity.
  - intros [|c it] Hc; [reflexivity | discriminate].
  - walk_container.
  - repeat constructor.
  - simpl. lia.
Defined.
